(** * Backend/server.js: real-time event distribution and response cache

    A shallow embedding of the socket.io connection handlers, the
    [/health] route and [cacheMiddleware] of [Backend/server.js].

    - Socket ids, user ids, case ids, room names and URLs are strings.
    - [connectedUsers] and [cache] are JavaScript [Map]s, modelled as [gmap].
    - socket.io rooms are a map from room name to the set of member socket
      ids; [io.to(room).emit(ev, payload)] hands [payload] once to every
      member of [room].
      The private room socket.io gives each socket under its own id is
      not tracked: no handler addresses it.  When a socket disconnects,
      socket.io takes it out of all its rooms and then runs the
      [disconnect] handler.
    - Event payloads have the fields the client's emit functions give them.
    - [Date.now()] is an explicit clock reading in milliseconds.
    - The router and the error handler mounted behind [cacheMiddleware] are
      parameters.

    After the server come the parts of the client that are plain functions:
    the emit functions of [services/socket.ts], the error messages of
    [utils/errorHandler.ts] with the toasts of [hooks/useToast.ts], the
    retry delay and the optimistic updaters of
    [queryClient.ts], and the listeners of [public/service-worker.js]. *)

From stdpp Require Import gmap strings list pretty.

Open Scope string_scope.
Open Scope list_scope.

#[local] Set Warnings "-register-all,-clear-no-such-hyp".

(** ** JavaScript values *)

(** JSON payloads.  [JIso ms] stands for the string that
    [new Date(ms).toISOString()] yields for the instant [ms]. *)
Inductive json : Type :=
| JNull
| JBool (b : bool)
| JNum (n : Z)
| JStr (s : string)
| JIso (ms : Z)
| JArr (items : list json)
| JObj (fields : list (string * json)).

(** Truthiness of a string: every string but the empty one. *)
Definition truthy (s : string) : bool := negb (String.eqb s "").

(** Truthiness of an optional string field; a missing field is [undefined]. *)
Definition truthy_opt (o : option string) : bool :=
  match o with
  | Some s => truthy s
  | None => false
  end.

(** Field access on an object literal. *)
Fixpoint field (k : string) (fs : list (string * json)) : option json :=
  match fs with
  | [] => None
  | (k', v) :: rest => if String.eqb k k' then Some v else field k rest
  end.

Definition get (k : string) (j : json) : option json :=
  match j with
  | JObj fs => field k fs
  | _ => None
  end.

(** ** Socket.io rooms *)

(** Template literals [`user:${userId}`] and [`case:${caseId}`]. *)
Definition user_room (userId : string) : string := "user:" +:+ userId.
Definition case_room (caseId : string) : string := "case:" +:+ caseId.

Definition members (rooms : gmap string (gset string)) (room : string)
  : gset string :=
  default ∅ (rooms !! room).

(** [socket.join(room)] *)
Definition join (room sid : string) (rooms : gmap string (gset string))
  : gmap string (gset string) :=
  <[room := {[sid]} ∪ members rooms room]> rooms.

(** [socket.leave(room)]: the adapter drops a room that becomes empty. *)
Definition leave (room sid : string) (rooms : gmap string (gset string))
  : gmap string (gset string) :=
  match rooms !! room with
  | None => rooms
  | Some s =>
      if decide (s ∖ {[sid]} = ∅) then delete room rooms
      else <[room := s ∖ {[sid]}]> rooms
  end.

(** What socket.io does to the rooms of a socket that disconnects. *)
Definition leave_all (sid : string) (rooms : gmap string (gset string))
  : gmap string (gset string) :=
  filter (λ kv, kv.2 ≠ ∅) ((λ s, s ∖ {[sid]}) <$> rooms).

(** ** Server state *)

Record State := mkState {
  connectedUsers : gmap string string;   (* socketId -> userId *)
  rooms : gmap string (gset string);     (* room -> member socket ids *)
  sockets : gset string                  (* connected socket ids *)
}.

Definition init : State :=
  {| connectedUsers := ∅; rooms := ∅; sockets := ∅ |}.

(** One [io.to(target).emit(event, payload)]. *)
Record Emit := mkEmit {
  target : string;
  event : string;
  payload : json
}.

(** One packet handed to one socket. *)
Record Delivery := mkDelivery {
  to : string;
  name : string;
  body : json
}.

Definition fan_out (rs : gmap string (gset string)) (e : Emit)
  : list Delivery :=
  (λ sid, mkDelivery sid (event e) (payload e)) <$> elements (members rs (target e)).

Definition deliveries (rs : gmap string (gset string)) (es : list Emit)
  : list Delivery :=
  es ≫= fan_out rs.

(** The packets of [ds] that reach socket [sid]. *)
Definition received (sid : string) (ds : list Delivery) : list Delivery :=
  filter (λ d, to d = sid) ds.

(** The two clock reads of the [chat:send] handler, in milliseconds:
    [Date.now()] for the id and [new Date()] for the timestamp. *)
Record Clock := mkClock {
  date_now : Z;
  new_date : Z
}.

(** ** Event payloads, as the client emits them *)

Record ChatSend := mkChatSend {
  receiverId : string;
  message : string;
  senderId : string;
  senderName : string
}.

Record ChatRead := mkChatRead {
  read_senderId : string;
  read_receiverId : string
}.

Record NotificationSend := mkNotificationSend {
  recipientId : string;
  notification : json
}.

Record CaseUpdate := mkCaseUpdate {
  caseId : string;
  update : json;
  assignedUserId : option string
}.

(** ** Handlers registered in [io.on('connection', ...)] *)

Definition on_connection (sid : string) (st : State) : State :=
  {| connectedUsers := connectedUsers st;
     rooms := rooms st;
     sockets := {[sid]} ∪ sockets st |}.

Definition on_authenticate (sid userId : string) (st : State) : State :=
  {| connectedUsers := <[sid := userId]> (connectedUsers st);
     rooms := join (user_room userId) sid (rooms st);
     sockets := sockets st |}.

Definition on_join_case (sid caseId : string) (st : State) : State :=
  {| connectedUsers := connectedUsers st;
     rooms := join (case_room caseId) sid (rooms st);
     sockets := sockets st |}.

Definition on_leave_case (sid caseId : string) (st : State) : State :=
  {| connectedUsers := connectedUsers st;
     rooms := leave (case_room caseId) sid (rooms st);
     sockets := sockets st |}.

Definition msg_id (now : Z) : string := "msg-" +:+ pretty now.

Definition chat_receive (clk : Clock) (data : ChatSend) : json :=
  JObj [ ("id", JStr (msg_id (date_now clk)));
         ("senderId", JStr (senderId data));
         ("senderName", JStr (senderName data));
         ("message", JStr (message data));
         ("timestamp", JIso (new_date clk));
         ("read", JBool false) ].

Definition on_chat_send (clk : Clock) (data : ChatSend) : list Emit :=
  [ mkEmit (user_room (receiverId data)) "chat:receive" (chat_receive clk data) ].

Definition on_chat_read (data : ChatRead) : list Emit :=
  [ mkEmit (user_room (read_senderId data)) "chat:read:confirm"
      (JObj [ ("userId", JStr (read_receiverId data)) ]) ].

Definition on_notification_send (data : NotificationSend) : list Emit :=
  [ mkEmit (user_room (recipientId data)) "notification:receive"
      (notification data) ].

Definition on_case_update (data : CaseUpdate) : list Emit :=
  mkEmit (case_room (caseId data)) "case:updated" (update data)
  :: match assignedUserId data with
     | Some uid =>
         if truthy uid
         then [ mkEmit (user_room uid) "case:updated" (update data) ]
         else []
     | None => []
     end.

(** The [disconnect] handler proper: it only touches [connectedUsers]. *)
Definition on_disconnect (sid : string) (users : gmap string string)
  : gmap string string :=
  match users !! sid with
  | Some userId => if truthy userId then delete sid users else users
  | None => users
  end.

(** ** The server as a transition system *)

Inductive ClientEvent :=
| authenticate (userId : string)
| join_case (caseId : string)
| leave_case (caseId : string)
| chat_send (data : ChatSend)
| chat_read (data : ChatRead)
| notification_send (data : NotificationSend)
| case_update (data : CaseUpdate)
| disconnect.

Inductive Input :=
| Connection (sid : string)
| Recv (sid : string) (e : ClientEvent).

(** The events that publish to groups. *)
Definition is_publish (e : ClientEvent) : bool :=
  match e with
  | chat_send _ | chat_read _ | notification_send _ | case_update _ => true
  | _ => false
  end.

(** What a handler emits; only the publishing events emit anything. *)
Definition emits (clk : Clock) (e : ClientEvent) : list Emit :=
  match e with
  | chat_send data => on_chat_send clk data
  | chat_read data => on_chat_read data
  | notification_send data => on_notification_send data
  | case_update data => on_case_update data
  | _ => []
  end.

(** How a handler changes the state. *)
Definition handle (sid : string) (e : ClientEvent) (st : State) : State :=
  match e with
  | authenticate userId => on_authenticate sid userId st
  | join_case caseId => on_join_case sid caseId st
  | leave_case caseId => on_leave_case sid caseId st
  | disconnect =>
      {| connectedUsers := on_disconnect sid (connectedUsers st);
         rooms := leave_all sid (rooms st);
         sockets := sockets st ∖ {[sid]} |}
  | _ => st
  end.

(** Handlers exist only on connected sockets: an event named for a socket
    that is not connected reaches no handler. *)
Definition step (clk : Clock) (i : Input) (st : State) : State * list Delivery :=
  match i with
  | Connection sid => (on_connection sid st, [])
  | Recv sid e =>
      if decide (sid ∈ sockets st)
      then (handle sid e st, deliveries (rooms st) (emits clk e))
      else (st, [])
  end.

Fixpoint run (tr : list (Clock * Input)) (st : State) : State * list Delivery :=
  match tr with
  | [] => (st, [])
  | (clk, i) :: rest =>
      let '(st1, ds1) := step clk i st in
      let '(st2, ds2) := run rest st1 in
      (st2, ds1 ++ ds2)
  end.

(** Socket [sid] sent [authenticate] somewhere in the trace. *)
Definition authenticated_in (sid : string) (tr : list (Clock * Input)) : Prop :=
  ∃ clk userId, (clk, Recv sid (authenticate userId)) ∈ tr.

(** Room members are connected sockets. *)
Definition members_connected (st : State) : Prop :=
  ∀ room sid, sid ∈ members (rooms st) room → sid ∈ sockets st.

(** ** The [/health] route *)

Definition health_sockets (st : State) : Z := Z.of_nat (size (connectedUsers st)).

Definition health (now : Z) (node_env : option string) (st : State) : json :=
  JObj ([ ("status", JStr "ok"); ("timestamp", JIso now) ]
        ++ match node_env with
           | Some env => [ ("environment", JStr env) ]
           | None => []
           end
        ++ [ ("sockets", JNum (health_sockets st)) ]).

(** ** The response cache *)

Record CacheEntry := mkCacheEntry {
  data : json;
  timestamp : Z
}.

Definition CACHE_TTL : Z := (30 * 1000)%Z.

(** [originalUrl] is the request target as received: path plus query string. *)
Record Request := mkRequest {
  method : string;
  originalUrl : string
}.

(** How the rest of the chain answers: through [res.json], after an
    optional [res.status], or through some other method of [res]. *)
Inductive Reply :=
| reply_json (status : nat) (d : json)
| reply_other (status : nat) (raw : string).

(** What the router mounted under [/api] does with a request. *)
Inductive RouteResult :=
| Replied (r : Reply)
| Unmatched
| Failed (err : json).

(** What the client gets: [res.json(cached.data)] straight from the
    middleware, or whatever the chain behind [next()] produced. *)
Inductive Served :=
| from_cache (d : json)
| from_handler (r : Reply).

(** The body of the 404 handler. *)
Definition not_found : json :=
  JObj [ ("success", JBool false);
         ("error", JObj [ ("code", JStr "NOT_FOUND");
                          ("message", JStr "Route not found") ]) ].

Section ResponseCache.

(** [./src/routes/index.js] and [./src/middleware/errorHandler.js]. *)
Variable routes : Request → RouteResult.
Variable errorHandler : json → Request → Reply.

(** The chain behind [cacheMiddleware]: the router, then the 404 handler;
    a failure skips to the error handler. *)
Definition next (req : Request) : Reply :=
  match routes req with
  | Replied r => r
  | Unmatched => reply_json 404 not_found
  | Failed err => errorHandler err req
  end.

(** The replaced [res.json]: it stores whatever it is given, at the clock
    reading [t_res] of the moment it is called. *)
Definition res_json (key : string) (t_res : Z) (r : Reply)
    (cache : gmap string CacheEntry) : gmap string CacheEntry :=
  match r with
  | reply_json _ d => <[key := mkCacheEntry d t_res]> cache
  | reply_other _ _ => cache
  end.

(** [t_req] is [Date.now()] when the middleware runs, [t_res] is
    [Date.now()] when the chain calls [res.json]. *)
Definition cacheMiddleware (t_req t_res : Z) (req : Request)
    (cache : gmap string CacheEntry) : gmap string CacheEntry * Served :=
  if negb (String.eqb (method req) "GET") then (cache, from_handler (next req))
  else
    let key := originalUrl req in
    match cache !! key with
    | Some cached =>
        if bool_decide (t_req - timestamp cached < CACHE_TTL)%Z
        then (cache, from_cache (data cached))
        else (res_json key t_res (next req) cache, from_handler (next req))
    | None => (res_json key t_res (next req) cache, from_handler (next req))
    end.

End ResponseCache.

(** Did the chain behind the middleware run for this request? *)
Definition recomputed (s : Served) : bool :=
  match s with
  | from_cache _ => false
  | from_handler _ => true
  end.

(** An answer that reports an error: status 400 or above. *)
Definition is_error (r : Reply) : bool :=
  match r with
  | reply_json status _ | reply_other status _ => bool_decide (400 ≤ status)%nat
  end.

(** ** The client's emit functions (services/socket.ts) *)

Definition authenticateSocket (userId : string) : ClientEvent :=
  authenticate userId.

Definition joinCaseRoom (caseId : string) : ClientEvent := join_case caseId.

Definition leaveCaseRoom (caseId : string) : ClientEvent := leave_case caseId.

Definition sendChatMessage (receiverId senderId senderName message : string)
  : ClientEvent :=
  chat_send {| receiverId := receiverId; message := message;
               senderId := senderId; senderName := senderName |}.

Definition markChatAsRead (senderId receiverId : string) : ClientEvent :=
  chat_read {| read_senderId := senderId; read_receiverId := receiverId |}.

Definition sendNotification (recipientId : string) (notification : json)
  : ClientEvent :=
  notification_send {| recipientId := recipientId; notification := notification |}.


(** ** Predicates on states and traces *)

(** The adapter keeps no room without members. *)
Definition no_empty_rooms (rs : gmap string (gset string)) : Prop :=
  ∀ room s, rs !! room = Some s → s ≠ ∅.

(** Every [authenticate] of the trace carries a non-empty user id, as the
    ones sent by [SocketProvider] do (it authenticates only when
    [user.staffId] is truthy). *)
Definition authenticates_truthy (tr : list (Clock * Input)) : Prop :=
  ∀ clk sid userId,
    (clk, Recv sid (authenticate userId)) ∈ tr → truthy userId = true.

(** Every entry of [connectedUsers] belongs to a connected socket and holds
    a non-empty user id. *)
Definition users_connected (st : State) : Prop :=
  ∀ sid userId,
    connectedUsers st !! sid = Some userId →
    sid ∈ sockets st ∧ truthy userId = true.

(** No connection with this socket id is made in the trace.  (socket.io
    gives every connection an id of its own.) *)
Definition never_reconnects (sid : string) (tr : list (Clock * Input)) : Prop :=
  ∀ clk, (clk, Connection sid) ∉ tr.

(** The socket is not connected and is in no room. *)
Definition cut_off (sid : string) (st : State) : Prop :=
  (sid ∉ sockets st) ∧ ∀ room, sid ∉ members (rooms st) room.

(** What goes on after b2 has left: a chat for B, a new socket of B's, a
    notification for B, and an event still named for b2. *)
Definition after_b2_left : list (Clock * Input) :=
  [ (mkClock 11 11, Recv "a1" (sendChatMessage "B" "A" "Ada" "hello"));
    (mkClock 12 12, Connection "b3");
    (mkClock 13 13, Recv "b3" (authenticateSocket "B"));
    (mkClock 14 14, Recv "b2" (joinCaseRoom "42"));
    (mkClock 15 15, Recv "a1" (sendNotification "B" (JStr "hearing moved"))) ].

(** A trace in which three sockets connect, two authenticate as B, and a
    chat is read and a notification sent. *)
Definition busy_trace : list (Clock * Input) :=
  [ (mkClock 0 0, Connection "a1");
    (mkClock 1 1, Connection "b1");
    (mkClock 2 2, Connection "b2");
    (mkClock 3 3, Recv "a1" (authenticateSocket "A"));
    (mkClock 4 4, Recv "b1" (authenticateSocket "B"));
    (mkClock 5 5, Recv "b2" (authenticateSocket "B"));
    (mkClock 6 6, Recv "a1" (sendChatMessage "B" "A" "Ada" "hello"));
    (mkClock 7 7, Recv "b1" (markChatAsRead "A" "B"));
    (mkClock 8 8, Recv "b2" disconnect) ].

(** ** Scenarios *)

(** Two devices of identity B, one device of identity A. *)
Definition two_devices : State :=
  (step (mkClock 0 0) (Recv "b2" (authenticate "B"))
    (step (mkClock 0 0) (Recv "b1" (authenticate "B"))
      (step (mkClock 0 0) (Recv "a1" (authenticate "A"))
        (step (mkClock 0 0) (Connection "b2")
          (step (mkClock 0 0) (Connection "b1")
            (step (mkClock 0 0) (Connection "a1") init).1).1).1).1).1).1.

Definition hello : ChatSend :=
  {| receiverId := "B"; message := "hello"; senderId := "A"; senderName := "Ada" |}.

(** A message identity A addresses to itself. *)
Definition to_self : ChatSend :=
  {| receiverId := "A"; message := "note to self"; senderId := "A";
     senderName := "Ada" |}.

(** A state with one viewer of case 42 who is not the assignee, and the
    assignee L, who is not viewing it. *)
Definition viewing : State :=
  (step (mkClock 0 0) (Recv "l1" (authenticate "L"))
    (step (mkClock 0 0) (Recv "v1" (join_case "42"))
      (step (mkClock 0 0) (Recv "v1" (authenticate "V"))
        (step (mkClock 0 0) (Connection "l1")
          (step (mkClock 0 0) (Connection "v1") init).1).1).1).1).1.

Definition reassigned : CaseUpdate :=
  {| caseId := "42"; update := JObj [("status", JStr "assigned")];
     assignedUserId := Some "L" |}.

(** One connected socket, nobody viewing any case. *)
Definition nobody_viewing : State :=
  (step (mkClock 0 0) (Connection "s1") init).1.

(** Socket s1 authenticates with the empty string, then disconnects. *)
Definition empty_id_authenticated : State :=
  (step (mkClock 1 1) (Recv "s1" (authenticate "")) nobody_viewing).1.

Definition empty_id_disconnected : State :=
  (step (mkClock 2 2) (Recv "s1" disconnect) empty_id_authenticated).1.


(** The assignee L is also viewing case 42. *)
Definition assignee_viewing : State :=
  (step (mkClock 0 0) (Recv "l1" (join_case "42")) viewing).1.

(** A socket that connects and joins case 42 without authenticating. *)
Definition join_without_authenticate : list (Clock * Input) :=
  [ (mkClock 0 0, Connection "s1");
    (mkClock 1 1, Recv "s1" (join_case "42")) ].

Definition to_i1 : ChatSend :=
  {| receiverId := "i1"; message := "for i1"; senderId := "i3"; senderName := "Ida" |}.

(** Socket s1 authenticated as i1 and then as i2, and as i2 only. *)
Definition twice_authenticated : State :=
  (step (mkClock 2 2) (Recv "s1" (authenticate "i2"))
     (step (mkClock 1 1) (Recv "s1" (authenticate "i1")) nobody_viewing).1).1.

Definition once_authenticated : State :=
  (step (mkClock 2 2) (Recv "s1" (authenticate "i2")) nobody_viewing).1.

Definition goodbye : ChatSend :=
  {| receiverId := "B"; message := "goodbye"; senderId := "A"; senderName := "Ada" |}.

Definition same_instant : list (Clock * Input) :=
  [ (mkClock 1700000000000 1700000000000, Recv "a1" (chat_send hello));
    (mkClock 1700000000000 1700000000000, Recv "a1" (chat_send goodbye)) ].

(** A router with a single route, the list of cases, and one with no route
    at all; an error handler that answers 500. *)
Definition cases_only (req : Request) : RouteResult :=
  if String.eqb (originalUrl req) "/api/cases?page=1"
  then Replied (reply_json 200 (JArr [JStr "case 1"; JStr "case 2"]))
  else Unmatched.

Definition no_routes (req : Request) : RouteResult := Unmatched.

Definition answer_500 (err : json) (req : Request) : Reply :=
  reply_json 500 (JObj [("success", JBool false)]).

Definition get_cases : Request :=
  {| method := "GET"; originalUrl := "/api/cases?page=1" |}.

Definition post_cases : Request :=
  {| method := "POST"; originalUrl := "/api/cases?page=1" |}.

Definition get_missing : Request :=
  {| method := "GET"; originalUrl := "/api/cases/999" |}.

(** The cache after the first [get_cases], answered at clock reading 1000,
    and after the first [get_missing], answered at clock reading 5. *)
Definition cases_cached : gmap string CacheEntry :=
  (cacheMiddleware cases_only answer_500 990 1000 get_cases ∅).1.

Definition missing_cached : gmap string CacheEntry :=
  (cacheMiddleware no_routes answer_500 0 5 get_missing ∅).1.

(** * The client: error messages, retry delays, optimistic updates *)

(** ** utils/errorHandler.ts *)

Module ERROR_MESSAGES.
Definition NETWORK_ERROR := "Unable to connect. Please check your internet connection.".
Definition TIMEOUT := "The request timed out. Please try again.".
Definition BAD_REQUEST := "Invalid request. Please check your input.".
Definition UNAUTHORIZED := "Your session has expired. Please log in again.".
Definition FORBIDDEN := "You don't have permission to perform this action.".
Definition NOT_FOUND := "The requested resource was not found.".
Definition CONFLICT := "A conflict occurred. Please refresh and try again.".
Definition VALIDATION_ERROR := "Please correct the errors and try again.".
Definition SERVER_ERROR := "Something went wrong on our end. Please try again later.".
Definition MAINTENANCE := "The system is under maintenance. Please try again later.".
Definition UNKNOWN_ERROR := "Something went wrong. Please try again.".
End ERROR_MESSAGES.

(** What a [catch] can receive: an [ApiError] (code, status, message), any
    other [Error] (name, message), or a value that is no [Error] at all. *)
Inductive Thrown :=
| ApiError (code : string) (status : Z) (msg : string)
| Error (name : string) (msg : string)
| NotAnError (v : json).

(** [s || d] on strings. *)
Definition or_else (s d : string) : string := if truthy s then s else d.

(** [hay.includes(needle)] *)
Fixpoint includes (hay needle : string) : bool :=
  String.prefix needle hay
  || match hay with
     | EmptyString => false
     | String _ rest => includes rest needle
     end.

(** Lower case of the ASCII letters; other bytes are left alone. *)
Definition lower_ascii (c : Ascii.ascii) : Ascii.ascii :=
  let n := Ascii.nat_of_ascii c in
  if (65 <=? n)%nat && (n <=? 90)%nat then Ascii.ascii_of_nat (n + 32) else c.

Fixpoint ascii_toLowerCase (s : string) : string :=
  match s with
  | EmptyString => EmptyString
  | String c rest => String (lower_ascii c) (ascii_toLowerCase rest)
  end.

(** *** hooks/useToast.ts *)

Record Toast := mkToast {
  toast_id : string;
  toast_message : string;
  toast_type : string;
  toast_duration : Z
}.

(** The toasts of the page: [state.toasts] and [toastIdRef] of the mounted
    [useToast], and whether [globalAddToast] is set, which it is while a
    component that uses [useToast] is mounted. *)
Record ToastSystem := mkToastSystem {
  toasts : list Toast;
  toastIdRef : nat;
  globalAddToast : bool
}.

(** [addToast]; [now] is the reading of [Date.now()].  The removal the
    timer makes after [duration] is a later event. *)
Definition addToast (now : Z) (message type : string) (duration : Z)
    (ts : ToastSystem) : ToastSystem :=
  {| toasts :=
       toasts ts
       ++ [ mkToast ("toast-" +:+ pretty now +:+ "-" +:+ pretty (toastIdRef ts))
              message type duration ];
     toastIdRef := S (toastIdRef ts);
     globalAddToast := globalAddToast ts |}.

(** [showToast(message, type, duration = 5000)]: without a mounted toast
    system it only warns on the console. *)
Definition showToast (now : Z) (message type : string) (duration : option Z)
    (ts : ToastSystem) : ToastSystem :=
  if globalAddToast ts
  then addToast now message type (default 5000%Z duration) ts
  else ts.

Definition showError (now : Z) (message : string) (duration : option Z)
    (ts : ToastSystem) : ToastSystem :=
  showToast now message "error" duration ts.

Section ErrorHandler.

(** [String.prototype.toLowerCase]. *)
Variable toLowerCase : string → string.

Definition getUserFriendlyMessage (error : Thrown) : string :=
  match error with
  | ApiError code status msg =>
      if (status =? 0)%Z then ERROR_MESSAGES.NETWORK_ERROR
      else if (status =? 400)%Z then or_else msg ERROR_MESSAGES.BAD_REQUEST
      else if (status =? 401)%Z then ERROR_MESSAGES.UNAUTHORIZED
      else if (status =? 403)%Z then ERROR_MESSAGES.FORBIDDEN
      else if (status =? 404)%Z then ERROR_MESSAGES.NOT_FOUND
      else if (status =? 409)%Z then ERROR_MESSAGES.CONFLICT
      else if (status =? 422)%Z then ERROR_MESSAGES.VALIDATION_ERROR
      else if (status =? 408)%Z || (status =? 504)%Z then ERROR_MESSAGES.TIMEOUT
      else if (status =? 500)%Z || (status =? 501)%Z
              || (status =? 502)%Z || (status =? 503)%Z
           then ERROR_MESSAGES.SERVER_ERROR
      else if String.eqb code "NETWORK_ERROR" then ERROR_MESSAGES.NETWORK_ERROR
      else if String.eqb code "PARSE_ERROR" then ERROR_MESSAGES.SERVER_ERROR
      else or_else msg ERROR_MESSAGES.UNKNOWN_ERROR
  | Error _ msg =>
      let message := toLowerCase msg in
      if includes message "network" || includes message "fetch"
      then ERROR_MESSAGES.NETWORK_ERROR
      else if includes message "timeout" then ERROR_MESSAGES.TIMEOUT
      else ERROR_MESSAGES.UNKNOWN_ERROR
  | NotAnError _ => ERROR_MESSAGES.UNKNOWN_ERROR
  end.

(** [handleApiError]: the message it returns and what [showError] makes of
    the toasts.  Logging to the console is left out. *)
Definition handleApiError (now : Z) (error : Thrown) (context : string)
    (customMessage : option string) (ts : ToastSystem) : string * ToastSystem :=
  let userMessage :=
    match customMessage with
    | Some custom => if truthy custom then custom else getUserFriendlyMessage error
    | None => getUserFriendlyMessage error
    end in
  (userMessage, showError now userMessage None ts).

Definition getErrorMessage (error : Thrown) (context : string) : string :=
  getUserFriendlyMessage error.

Definition isNetworkError (error : Thrown) : bool :=
  match error with
  | ApiError code status _ => (status =? 0)%Z || String.eqb code "NETWORK_ERROR"
  | Error _ msg =>
      let message := toLowerCase msg in
      includes message "network" || includes message "fetch"
  | NotAnError _ => false
  end.

End ErrorHandler.

Definition isAuthError (error : Thrown) : bool :=
  match error with
  | ApiError code status _ => (status =? 401)%Z || String.eqb code "UNAUTHORIZED"
  | _ => false
  end.

Definition isPermissionError (error : Thrown) : bool :=
  match error with
  | ApiError code status _ => (status =? 403)%Z || String.eqb code "FORBIDDEN"
  | _ => false
  end.

Definition isValidationError (error : Thrown) : bool :=
  match error with
  | ApiError _ status _ => (status =? 400)%Z || (status =? 422)%Z
  | _ => false
  end.

(** An [ApiError] whose code is none of those the predicates test for;
    any other thrown value has no code. *)
Definition ordinary_code (error : Thrown) : Prop :=
  match error with
  | ApiError code _ _ =>
      code ≠ "NETWORK_ERROR" ∧ code ≠ "UNAUTHORIZED" ∧ code ≠ "FORBIDDEN"
  | _ => True
  end.

(** How many of the four predicates hold of an error. *)
Definition classes (toLowerCase : string → string) (error : Thrown) : nat :=
  length (List.filter (λ b : bool, b)
            [ isNetworkError toLowerCase error; isAuthError error;
              isPermissionError error; isValidationError error ]).

(** The statuses whose message is fixed, whatever the error carries. *)
Definition fixed_statuses : list Z :=
  [0; 401; 403; 404; 409; 422; 408; 504; 500; 501; 502; 503]%Z.

(** ** queryClient.ts *)

(** [retryDelay]: [Math.min(1000 * 2 ** attemptIndex, 30000)], for the
    attempt counts 0, 1, 2, ... the query client passes. *)
Definition retryDelay (attemptIndex : nat) : Z :=
  Z.min (1000 * 2 ^ Z.of_nat attemptIndex) 30000.

(** The updater of [optimisticUpdates.updateCase]:
    [old ? { ...old, ...updates } : undefined].  Objects are maps from field
    names to values; a spread lets the later object win. *)
Definition updateCase_updater (updates : gmap string json)
    (old : option (gmap string json)) : option (gmap string json) :=
  match old with
  | Some o => Some (updates ∪ o)
  | None => None
  end.

(** The updater of [optimisticUpdates.addCase]:
    [old ? [newCase, ...old] : [newCase]]. *)
Definition addCase_updater (newCase : gmap string json)
    (old : option (list (gmap string json))) : option (list (gmap string json)) :=
  match old with
  | Some cases => Some (newCase :: cases)
  | None => Some [newCase]
  end.

(** The string a value is, when it is one.  [JIso ms] is the string
    [new Date(ms).toISOString()], so the rendering of dates is a parameter. *)
Definition as_string (toISOString : Z → string) (v : json) : option string :=
  match v with
  | JStr s => Some s
  | JIso ms => Some (toISOString ms)
  | _ => None
  end.

(** The [id] of a case, when it is a string. *)
Definition id_string (toISOString : Z → string) (c : gmap string json)
  : option string :=
  c !! "id" ≫= as_string toISOString.

(** [c.id !== caseId]: a string differs when its content does, anything
    that is no string differs from [caseId]. *)
Definition id_differs (toISOString : Z → string) (caseId : string)
    (c : gmap string json) : bool :=
  match id_string toISOString c with
  | Some s => negb (String.eqb s caseId)
  | None => true
  end.

(** The updater of [optimisticUpdates.removeCase]:
    [old ? old.filter((c) => c.id !== caseId) : undefined]. *)
Definition removeCase_updater (toISOString : Z → string) (caseId : string)
    (old : option (list (gmap string json))) : option (list (gmap string json)) :=
  match old with
  | Some cases => Some (List.filter (id_differs toISOString caseId) cases)
  | None => None
  end.

(** A rendering of dates for lists of cases in which no id is a date. *)
Definition undated (ms : Z) : string := "".

(** * The service worker (public/service-worker.js)

    The cache storage is keyed by URL ([Vary] headers play no part), a
    [cache.put] is taken to succeed, and a put the listener starts is done
    before the next event is handled. *)

Definition CACHE_NAME : string := "kaduna-court-v1".

Definition STATIC_ASSETS : list string :=
  [ "/"; "/index.html"; "/src/index.css"; "/src/index.tsx" ].

(** A request as the worker looks at it: method and absolute URL. *)
Record SwRequest := mkSwRequest {
  sw_method : string;
  sw_url : string
}.

Record SwResponse := mkSwResponse {
  sw_status : Z;
  sw_type : string;
  sw_body : string
}.

(** [response.ok] *)
Definition sw_ok (r : SwResponse) : bool :=
  (200 <=? sw_status r)%Z && (sw_status r <=? 299)%Z.

(** The cache storage of the origin: the named caches in the order they
    were created, each a map from URL to stored response. *)
Abbreviation CacheStorage := (list (string * gmap string SwResponse)).

(** [caches.match(url)]: the first cache, in creation order, that holds
    the URL answers. *)
Fixpoint caches_match (url : string) (cs : CacheStorage) : option SwResponse :=
  match cs with
  | [] => None
  | (_, c) :: rest =>
      match c !! url with
      | Some r => Some r
      | None => caches_match url rest
      end
  end.

Definition has_cache (cacheName : string) (cs : CacheStorage) : bool :=
  existsb (λ nc, String.eqb nc.1 cacheName) cs.

(** [caches.open(cacheName)] creates the cache when there is none. *)
Definition caches_open (cacheName : string) (cs : CacheStorage) : CacheStorage :=
  if has_cache cacheName cs then cs else cs ++ [(cacheName, ∅)].

(** [cache.put(url, response)] on the cache called [cacheName]. *)
Definition cache_put (cacheName url : string) (r : SwResponse) (cs : CacheStorage)
  : CacheStorage :=
  (λ nc, if String.eqb nc.1 cacheName then (nc.1, <[url := r]> nc.2) else nc) <$> cs.

(** What becomes of a fetch event: the worker leaves it to the browser, or
    answers it ([None] is a promise that resolves to [undefined]). *)
Inductive FetchOutcome :=
| PassThrough
| RespondWith (r : option SwResponse).

Section ServiceWorker.

(** The origin the worker is registered for; relative URLs resolve against it. *)
Variable origin : string.

(** [fetch(request)]: [None] is a rejected promise. *)
Variable network : SwRequest → option SwResponse.

(** The [fetch] listener. *)
Definition sw_fetch (req : SwRequest) (cs : CacheStorage)
  : CacheStorage * FetchOutcome :=
  if negb (String.eqb (sw_method req) "GET") then (cs, PassThrough)
  else if includes (sw_url req) "/api/" || includes (sw_url req) "/socket.io/"
  then (cs, PassThrough)
  else
    match caches_match (sw_url req) cs with
    | Some response => (cs, RespondWith (Some response))
    | None =>
        match network req with
        | Some networkResponse =>
            if negb (sw_status networkResponse =? 200)%Z
               || negb (String.eqb (sw_type networkResponse) "basic")
            then (cs, RespondWith (Some networkResponse))
            else (cache_put CACHE_NAME (sw_url req) networkResponse
                    (caches_open CACHE_NAME cs),
                  RespondWith (Some networkResponse))
        | None => (cs, RespondWith (caches_match (origin +:+ "/index.html") cs))
        end
    end.

(** [cache.addAll(urls)]: every URL is fetched; if one fetch fails or is
    not ok nothing is stored. *)
Fixpoint fetch_all (urls : list string) : option (list (string * SwResponse)) :=
  match urls with
  | [] => Some []
  | url :: rest =>
      match network (mkSwRequest "GET" (origin +:+ url)) with
      | Some r =>
          if sw_ok r
          then match fetch_all rest with
               | Some rs => Some ((origin +:+ url, r) :: rs)
               | None => None
               end
          else None
      | None => None
      end
  end.

(** The asset cannot be fetched, or is fetched with a status that is not ok. *)
Definition asset_fails (url : string) : Prop :=
  network (mkSwRequest "GET" (origin +:+ url)) = None
  ∨ ∃ r, network (mkSwRequest "GET" (origin +:+ url)) = Some r ∧ sw_ok r = false.

Definition asset_loads (url : string) : Prop :=
  ∃ r, network (mkSwRequest "GET" (origin +:+ url)) = Some r ∧ sw_ok r = true.

(** The [install] listener; a failure of [addAll] is caught and logged. *)
Definition sw_install (cs : CacheStorage) : CacheStorage :=
  let opened := caches_open CACHE_NAME cs in
  match fetch_all STATIC_ASSETS with
  | Some rs => fold_left (λ acc ur, cache_put CACHE_NAME ur.1 ur.2 acc) rs opened
  | None => opened
  end.

End ServiceWorker.

(** Whether the listener answers a request at all. *)
Definition handled_by_worker (req : SwRequest) : Prop :=
  sw_method req = "GET"
  ∧ includes (sw_url req) "/api/" = false
  ∧ includes (sw_url req) "/socket.io/" = false.

(** A sequence of fetch events, each with the network as it is then. *)
Fixpoint sw_run (origin : string)
    (events : list ((SwRequest → option SwResponse) * SwRequest))
    (cs : CacheStorage) : CacheStorage :=
  match events with
  | [] => cs
  | (network, req) :: rest => sw_run origin rest (sw_fetch origin network req cs).1
  end.

(** No cache holds a URL that contains [/api/] or [/socket.io/]. *)
Definition api_free (cs : CacheStorage) : Prop :=
  ∀ n c url, (n, c) ∈ cs → is_Some (c !! url) →
    includes url "/api/" = false ∧ includes url "/socket.io/" = false.

(** The [activate] listener: every cache but the current one is deleted. *)
Definition sw_activate (cs : CacheStorage) : CacheStorage :=
  List.filter (λ nc, String.eqb nc.1 CACHE_NAME) cs.

(** A network on which everything is found, and one that is down. *)
Definition online (req : SwRequest) : option SwResponse :=
  Some (mkSwResponse 200 "basic" ("content of " +:+ sw_url req)).

Definition offline (req : SwRequest) : option SwResponse := None.

Definition get_logo : SwRequest :=
  {| sw_method := "GET"; sw_url := "https://court.example/logo.png" |}.

Definition get_api_cases : SwRequest :=
  {| sw_method := "GET"; sw_url := "https://court.example/api/cases" |}.

(** A cache left by an earlier version of the worker. *)
Definition old_caches : CacheStorage :=
  [ ("kaduna-court-v0",
     {[ "https://court.example/old.js" := mkSwResponse 200 "basic" "old" ]}) ].

(** A page with a toast on screen, and a page where no component using
    [useToast] is mounted. *)
Definition toasts_mounted : ToastSystem :=
  {| toasts := [ mkToast "toast-1600-0" "Saved" "success" 5000 ];
     toastIdRef := 1;
     globalAddToast := true |}.

Definition toasts_unmounted : ToastSystem :=
  {| toasts := []; toastIdRef := 0; globalAddToast := false |}.

(** * Properties *)

(** ** Rooms *)

Lemma members_join_eq room sid (rs : gmap string (gset string)) :
  members (join room sid rs) room = {[sid]} ∪ members rs room.
Proof. unfold members at 1, join. by rewrite lookup_insert_eq. Qed.

Lemma members_join_ne room room' sid (rs : gmap string (gset string)) :
  room ≠ room' → members (join room sid rs) room' = members rs room'.
Proof. intros Hne. unfold members, join. by rewrite lookup_insert_ne. Qed.

Lemma elem_of_members_join room room' sid x (rs : gmap string (gset string)) :
  x ∈ members (join room sid rs) room'
  ↔ (room = room' ∧ x = sid) ∨ x ∈ members rs room'.
Proof.
  destruct (decide (room = room')) as [->|Hne].
  - rewrite members_join_eq. set_solver.
  - rewrite members_join_ne by done. naive_solver.
Qed.

Lemma elem_of_members_leave room room' sid x (rs : gmap string (gset string)) :
  x ∈ members (leave room sid rs) room'
  ↔ x ∈ members rs room' ∧ ¬ (room = room' ∧ x = sid).
Proof.
  unfold leave. destruct (rs !! room) as [s|] eqn:Hs.
  - destruct (decide (room = room')) as [<-|Hne].
    + case_decide as He; unfold members.
      * rewrite lookup_delete_eq, Hs. simpl. set_solver.
      * rewrite lookup_insert_eq, Hs. simpl. set_solver.
    + case_decide; unfold members.
      * rewrite lookup_delete_ne by done. naive_solver.
      * rewrite lookup_insert_ne by done. naive_solver.
  - split; [|naive_solver]. intros Hx. split; [done|].
    intros [<- _]. unfold members in Hx. rewrite Hs in Hx. set_solver.
Qed.

Lemma elem_of_members_leave_all room sid x (rs : gmap string (gset string)) :
  x ∈ members (leave_all sid rs) room ↔ x ∈ members rs room ∧ x ≠ sid.
Proof.
  unfold members, leave_all.
  destruct (rs !! room) as [s|] eqn:Hs; simpl.
  - destruct (decide (s ∖ {[sid]} = ∅)) as [He|Hne].
    + rewrite (proj2 (map_lookup_filter_None _ _ _)); simpl; [set_solver|].
      right. intros y. rewrite lookup_fmap, Hs. simpl. intros [= <-]. simpl. tauto.
    + rewrite (map_lookup_filter_Some_2 _ _ room (s ∖ {[sid]})); simpl; [set_solver| |done].
      by rewrite lookup_fmap, Hs.
  - rewrite (proj2 (map_lookup_filter_None _ _ _)); simpl; [set_solver|].
    left. by rewrite lookup_fmap, Hs.
Qed.

(** ** Fan-out *)

Lemma length_filter_eq_NoDup (x : string) (l : list string) :
  NoDup l →
  length (filter (λ y, y = x) l) = if decide (x ∈ l) then 1 else 0.
Proof.
  induction 1 as [|y l Hy Hnd IH].
  - case_decide as Hin; [|done]. by apply elem_of_nil in Hin.
  - rewrite filter_cons. destruct (decide (y = x)) as [->|Hne]; simpl; rewrite IH.
    + destruct (decide (x ∈ l)); [done|].
      case_decide as Hin; [done|]. exfalso. apply Hin. left.
    + repeat case_decide; try done.
      * exfalso. set_solver.
      * exfalso. set_solver.
Qed.

Lemma received_fmap sid ev p (l : list string) :
  received sid ((λ s, mkDelivery s ev p) <$> l)
  = (λ s, mkDelivery s ev p) <$> filter (λ y, y = sid) l.
Proof.
  unfold received. induction l as [|y l IH]; [done|].
  rewrite fmap_cons, !filter_cons. simpl.
  destruct (decide (y = sid)); simpl; by rewrite IH.
Qed.

(** One emit hands one packet to each member of the target room and none
    to anybody else. *)
Lemma received_fan_out sid rs e :
  length (received sid (fan_out rs e))
  = if decide (sid ∈ members rs (target e)) then 1 else 0.
Proof.
  unfold fan_out. rewrite received_fmap, length_fmap.
  rewrite length_filter_eq_NoDup by apply NoDup_elements.
  destruct (decide (sid ∈ members rs (target e))).
  - by rewrite decide_True by (by apply elem_of_elements).
  - by rewrite decide_False by (by rewrite elem_of_elements).
Qed.

Lemma elem_of_fan_out d rs e :
  d ∈ fan_out rs e
  ↔ to d ∈ members rs (target e) ∧ name d = event e ∧ body d = payload e.
Proof.
  unfold fan_out. rewrite list_elem_of_fmap. split.
  - intros (sid & -> & Hin). by apply elem_of_elements in Hin.
  - intros (Hin & Hn & Hb). exists (to d). split.
    + destruct d; simpl in *; by subst.
    + by apply elem_of_elements.
Qed.


Lemma received_app sid ds1 ds2 :
  received sid (ds1 ++ ds2) = received sid ds1 ++ received sid ds2.
Proof. apply filter_app. Qed.

Lemma deliveries_cons rs e es :
  deliveries rs (e :: es) = fan_out rs e ++ deliveries rs es.
Proof. done. Qed.

Lemma deliveries_nil rs : deliveries rs [] = [].
Proof. done. Qed.

(** ** Publishing *)

(** Closed, decidable facts about concrete states are settled by evaluation. *)
Ltac by_eval := apply (bool_decide_unpack _); vm_compute; exact I.

Lemma step_publish clk sid e st :
  sid ∈ sockets st → is_publish e = true →
  step clk (Recv sid e) st = (st, deliveries (rooms st) (emits clk e)).
Proof.
  intros Hin He. unfold step. rewrite decide_True by done.
  by destruct e.
Qed.

Lemma user_room_inj a b : user_room a = user_room b → a = b.
Proof. unfold user_room. intros H. by simplify_eq/=. Qed.

Lemma case_room_inj a b : case_room a = case_room b → a = b.
Proof. unfold case_room. intros H. by simplify_eq/=. Qed.

Lemma deliveries_singleton rs e : deliveries rs [e] = fan_out rs e.
Proof. rewrite deliveries_cons, deliveries_nil. apply app_nil_r. Qed.

Lemma filter_eq_NoDup (x : string) (l : list string) :
  NoDup l →
  filter (λ y, y = x) l = if decide (x ∈ l) then [x] else [].
Proof.
  induction 1 as [|y l Hy Hnd IH].
  - case_decide as Hin; [|done]. by apply elem_of_nil in Hin.
  - rewrite filter_cons, IH.
    destruct (decide (y = x)) as [->|Hne], (decide (x ∈ l)) as [Hl|Hl];
      destruct (decide (x ∈ _ :: l)) as [Hc|Hc]; try done.
    + exfalso. apply Hc. left.
    + exfalso. apply Hc. by right.
    + exfalso. apply elem_of_cons in Hc as [->|Hc]; done.
Qed.

(** The packets one emit hands to one socket. *)
Lemma received_fan_out_eq sid rs e :
  received sid (fan_out rs e)
  = if decide (sid ∈ members rs (target e))
    then [mkDelivery sid (event e) (payload e)] else [].
Proof.
  unfold fan_out. rewrite received_fmap.
  rewrite filter_eq_NoDup by apply NoDup_elements.
  destruct (decide (sid ∈ members rs (target e))).
  - by rewrite decide_True by (by apply elem_of_elements).
  - by rewrite decide_False by (by rewrite elem_of_elements).
Qed.

(** How many [chat:receive] packets a socket gets out of one [chat:send]. *)
Lemma received_chat_send clk st src data sid :
  src ∈ sockets st →
  length (received sid (step clk (Recv src (chat_send data)) st).2)
  = if decide (sid ∈ members (rooms st) (user_room (receiverId data)))
    then 1 else 0.
Proof.
  intros Hsrc. rewrite step_publish by done.
  cbn [snd emits]. unfold on_chat_send.
  by rewrite deliveries_singleton, received_fan_out.
Qed.

(** C1, as stated, fails on "never to the sender's own identity group":
    when an identity writes to itself the receiver's room is the sender's
    own, and the sender's socket, a member of it, is handed the message. *)
Lemma chat_to_self_reaches_sender_group :
  "a1" ∈ members (rooms two_devices) (user_room (senderId to_self))
  ∧ received "a1" (step (mkClock 1700 1701) (Recv "a1" (chat_send to_self)) two_devices).2
    = [ mkDelivery "a1" "chat:receive"
          (JObj [ ("id", JStr "msg-1700"); ("senderId", JStr "A");
                  ("senderName", JStr "Ada"); ("message", JStr "note to self");
                  ("timestamp", JIso 1701); ("read", JBool false) ]) ].
Proof. split; [by_eval|by vm_compute]. Qed.

(** C1, amended. A [chat:send] from a connected socket changes no state and
    makes a single emit, to the room [user:<receiverId>], of a
    [chat:receive] that carries the id [msg-<Date.now()>], the sender's id
    and name and the message as they were sent, the current date as
    timestamp and the read flag false.  Every socket in that room is handed
    exactly that packet once and every other socket nothing, so all
    recipients see the same id.  The sender's own room is not addressed
    unless sender and receiver are the same identity; then it is the
    receiver's room and its sockets are handed the message. *)
Theorem chat_send_reaches_receiver_group clk st src data :
  src ∈ sockets st →
  let out := step clk (Recv src (chat_send data)) st in
  let msg := JObj [ ("id", JStr ("msg-" +:+ pretty (date_now clk)));
                    ("senderId", JStr (senderId data));
                    ("senderName", JStr (senderName data));
                    ("message", JStr (message data));
                    ("timestamp", JIso (new_date clk));
                    ("read", JBool false) ] in
  out.1 = st
  ∧ on_chat_send clk data
    = [ mkEmit ("user:" +:+ receiverId data) "chat:receive" msg ]
  ∧ (senderId data ≠ receiverId data →
     "user:" +:+ senderId data ∉ target <$> on_chat_send clk data)
  ∧ (senderId data = receiverId data →
     ∀ sid, sid ∈ members (rooms st) ("user:" +:+ senderId data) →
            received sid out.2 = [ mkDelivery sid "chat:receive" msg ])
  ∧ (∀ sid, received sid out.2
            = if decide (sid ∈ members (rooms st) ("user:" +:+ receiverId data))
              then [ mkDelivery sid "chat:receive" msg ] else [])
  ∧ (∀ d, d ∈ out.2 →
       name d = "chat:receive" ∧ body d = msg
       ∧ get "id" (body d) = Some (JStr ("msg-" +:+ pretty (date_now clk)))
       ∧ get "timestamp" (body d) = Some (JIso (new_date clk))
       ∧ get "read" (body d) = Some (JBool false)).
Proof.
  intros Hsrc out msg. subst out. rewrite step_publish by done.
  cbn [fst snd emits].
  assert (Hemit : on_chat_send clk data
                  = [ mkEmit ("user:" +:+ receiverId data) "chat:receive" msg ])
    by reflexivity.
  rewrite Hemit, deliveries_singleton.
  assert (Hrecv : ∀ sid,
            received sid (fan_out (rooms st)
                            (mkEmit ("user:" +:+ receiverId data) "chat:receive" msg))
            = if decide (sid ∈ members (rooms st) ("user:" +:+ receiverId data))
              then [ mkDelivery sid "chat:receive" msg ] else [])
    by (intros sid; apply received_fan_out_eq).
  split_and!.
  - done.
  - done.
  - intros Hne Hin. apply list_elem_of_singleton in Hin.
    by apply (user_room_inj (senderId data) (receiverId data)) in Hin.
  - intros Heq sid Hin. rewrite Hrecv, decide_True; [done|]. by rewrite <- Heq.
  - exact Hrecv.
  - intros d Hd. apply elem_of_fan_out in Hd as (_ & -> & ->). by subst msg.
Qed.

Lemma chat_send_reaches_receiver_group_witness :
  "a1" ∈ sockets two_devices
  ∧ received "b1" (step (mkClock 1700 1701) (Recv "a1" (chat_send hello)) two_devices).2
    = [ mkDelivery "b1" "chat:receive"
          (JObj [ ("id", JStr "msg-1700"); ("senderId", JStr "A");
                  ("senderName", JStr "Ada"); ("message", JStr "hello");
                  ("timestamp", JIso 1701); ("read", JBool false) ]) ]
  ∧ received "b2" (step (mkClock 1700 1701) (Recv "a1" (chat_send hello)) two_devices).2
    = [ mkDelivery "b2" "chat:receive"
          (JObj [ ("id", JStr "msg-1700"); ("senderId", JStr "A");
                  ("senderName", JStr "Ada"); ("message", JStr "hello");
                  ("timestamp", JIso 1701); ("read", JBool false) ]) ]
  ∧ received "a1" (step (mkClock 1700 1701) (Recv "a1" (chat_send hello)) two_devices).2
    = [].
Proof.
  assert (Hsrc : "a1" ∈ sockets two_devices) by by_eval.
  pose proof (chat_send_reaches_receiver_group (mkClock 1700 1701) two_devices "a1" hello Hsrc)
    as (_ & _ & _ & _ & Hrecv & _).
  split; [exact Hsrc|].
  rewrite !Hrecv. split_and!.
  - rewrite decide_True by by_eval. reflexivity.
  - rewrite decide_True by by_eval. reflexivity.
  - rewrite decide_False by by_eval. reflexivity.
Defined.

Lemma user_room_ne_case_room uid cid : user_room uid ≠ case_room cid.
Proof. unfold user_room, case_room. intros H. by simplify_eq/=. Qed.

(** The emits of [case:update], spelled out by the truthiness test. *)
Lemma on_case_update_unfold d :
  on_case_update d
  = mkEmit (case_room (caseId d)) "case:updated" (update d)
    :: match assignedUserId d with
       | Some uid =>
           if truthy uid then [mkEmit (user_room uid) "case:updated" (update d)] else []
       | None => []
       end.
Proof. done. Qed.

(** How many [case:updated] packets a socket gets out of one [case:update]:
    one for the case room and one more for the assignee's room. *)
Lemma received_case_update sid rs d :
  length (received sid (deliveries rs (on_case_update d)))
  = (if decide (sid ∈ members rs (case_room (caseId d))) then 1 else 0)
    + match assignedUserId d with
      | Some uid =>
          if truthy uid
          then (if decide (sid ∈ members rs (user_room uid)) then 1 else 0)
          else 0
      | None => 0
      end.
Proof.
  rewrite on_case_update_unfold, deliveries_cons, received_app, length_app.
  rewrite received_fan_out. f_equal.
  destruct (assignedUserId d) as [uid|]; [|done].
  destruct (truthy uid); [|done].
  by rewrite deliveries_singleton, received_fan_out.
Qed.


(** C2. A [case:update] from a connected socket changes no state and always
    emits the update to the case room.  It emits the same update to the room
    of a user exactly when the event carries that user as its assignee
    (present and not the empty string: the handler tests the field for
    truthiness); there is no other emit.  So every viewer of the case gets
    the update, and so does every socket of a supplied assignee, viewing or
    not. *)
Theorem case_update_routing clk st src d :
  src ∈ sockets st →
  let out := step clk (Recv src (case_update d)) st in
  out.1 = st
  ∧ mkEmit (case_room (caseId d)) "case:updated" (update d) ∈ on_case_update d
  ∧ (∀ uid, mkEmit (user_room uid) "case:updated" (update d) ∈ on_case_update d
            ↔ assignedUserId d = Some uid ∧ truthy uid = true)
  ∧ (∀ em, em ∈ on_case_update d →
       event em = "case:updated" ∧ payload em = update d
       ∧ (target em = case_room (caseId d)
          ∨ ∃ uid, assignedUserId d = Some uid ∧ target em = user_room uid))
  ∧ (∀ sid, sid ∈ members (rooms st) (case_room (caseId d)) →
       mkDelivery sid "case:updated" (update d) ∈ out.2)
  ∧ (∀ uid sid, assignedUserId d = Some uid → truthy uid = true →
       sid ∈ members (rooms st) (user_room uid) →
       mkDelivery sid "case:updated" (update d) ∈ out.2)
  ∧ (truthy_opt (assignedUserId d) = false →
     out.2 = fan_out (rooms st)
               (mkEmit (case_room (caseId d)) "case:updated" (update d))).
Proof.
  intros Hsrc out. subst out. rewrite step_publish by done.
  cbn [fst snd emits]. rewrite on_case_update_unfold.
  split_and!.
  - done.
  - by left.
  - intros uid. rewrite elem_of_cons. split.
    + intros [Heq|Hin].
      * exfalso. apply (f_equal target) in Heq. cbn [target] in Heq.
        by apply user_room_ne_case_room in Heq.
      * destruct (assignedUserId d) as [u|]; [|by apply elem_of_nil in Hin].
        destruct (truthy u) eqn:Hu; [|by apply elem_of_nil in Hin].
        apply list_elem_of_singleton in Hin.
        apply (f_equal target) in Hin. cbn [target] in Hin.
        apply user_room_inj in Hin. by subst.
    + intros [-> ->]. right. by left.
  - intros em. rewrite elem_of_cons. intros [->|Hin]; [naive_solver|].
    destruct (assignedUserId d) as [u|]; [|by apply elem_of_nil in Hin].
    destruct (truthy u); [|by apply elem_of_nil in Hin].
    apply list_elem_of_singleton in Hin as ->. naive_solver.
  - intros sid Hin. rewrite deliveries_cons. apply elem_of_app. left.
    by apply elem_of_fan_out.
  - intros uid sid -> -> Hin. rewrite deliveries_cons. apply elem_of_app. right.
    rewrite deliveries_singleton. by apply elem_of_fan_out.
  - intros Hno. destruct (assignedUserId d) as [u|]; simpl in Hno.
    + rewrite Hno. by rewrite deliveries_singleton.
    + by rewrite deliveries_singleton.
Qed.

Lemma case_update_routing_witness :
  "v1" ∈ sockets viewing
  ∧ ("l1" ∉ members (rooms viewing) (case_room "42"))
  ∧ mkDelivery "l1" "case:updated" (update reassigned)
      ∈ (step (mkClock 5 5) (Recv "v1" (case_update reassigned)) viewing).2
  ∧ mkDelivery "v1" "case:updated" (update reassigned)
      ∈ (step (mkClock 5 5) (Recv "v1" (case_update reassigned)) viewing).2.
Proof.
  assert (Hsrc : "v1" ∈ sockets viewing) by by_eval.
  pose proof (case_update_routing (mkClock 5 5) viewing "v1" reassigned Hsrc)
    as (_ & _ & _ & _ & Hcase & Huser & _).
  split_and!.
  - exact Hsrc.
  - by_eval.
  - apply (Huser "L"); [done|done|]. by_eval.
  - apply Hcase. by_eval.
Defined.



(** C9. When a [case:update] supplies an assignee (present and not the
    empty string), a socket that is both in the case room and in the
    assignee's room is handed the update twice for the one publish: both
    packets are [case:updated] with the same payload. *)
Theorem case_update_delivered_twice clk st src d uid sid :
  src ∈ sockets st →
  assignedUserId d = Some uid →
  truthy uid = true →
  sid ∈ members (rooms st) (case_room (caseId d)) →
  sid ∈ members (rooms st) (user_room uid) →
  received sid (step clk (Recv src (case_update d)) st).2
  = [ mkDelivery sid "case:updated" (update d);
      mkDelivery sid "case:updated" (update d) ].
Proof.
  intros Hsrc Ha Ht Hcase Huser. rewrite step_publish by done.
  cbn [snd emits].
  pose proof (received_case_update sid (rooms st) d) as Hlen.
  rewrite Ha, Ht, !decide_True in Hlen by done.
  assert (Hall : ∀ x, x ∈ received sid (deliveries (rooms st) (on_case_update d)) →
                      x = mkDelivery sid "case:updated" (update d)).
  { intros x. unfold received. rewrite list_elem_of_filter.
    intros [Hto Hx]. rewrite on_case_update_unfold, Ha, Ht in Hx.
    rewrite deliveries_cons, deliveries_singleton, elem_of_app in Hx.
    rewrite !elem_of_fan_out in Hx. destruct x; simpl in *. naive_solver. }
  destruct (received sid (deliveries (rooms st) (on_case_update d)))
    as [|x [|y [|z l]]]; simplify_eq/=.
  rewrite (Hall x), (Hall y); [done| |]; set_solver.
Qed.

Lemma case_update_delivered_twice_witness :
  length (received "l1"
            (step (mkClock 9 9) (Recv "v1" (case_update reassigned)) assignee_viewing).2)
  = 2.
Proof.
  rewrite (case_update_delivered_twice (mkClock 9 9) assignee_viewing "v1"
             reassigned "L" "l1"); [reflexivity|by_eval|reflexivity|reflexivity|by_eval|by_eval].
Defined.

(** ** Traces *)

Lemma run_cons clk i rest st :
  run ((clk, i) :: rest) st
  = ((run rest (step clk i st).1).1,
     (step clk i st).2 ++ (run rest (step clk i st).1).2).
Proof.
  cbn [run]. destruct (step clk i st) as [st1 ds1]. cbn [fst snd].
  by destruct (run rest st1) as [st2 ds2].
Qed.

Lemma on_disconnect_lookup_None sid sid' (users : gmap string string) :
  users !! sid' = None → on_disconnect sid users !! sid' = None.
Proof.
  intros Hnone. unfold on_disconnect.
  destruct (users !! sid) as [uid|]; [|done].
  destruct (truthy uid); [|done].
  rewrite lookup_delete. by case_decide.
Qed.

(** Only the socket's own [authenticate] gives it an entry in
    [connectedUsers]. *)
Lemma step_connectedUsers_None clk i st sid :
  connectedUsers st !! sid = None →
  (∀ userId, i ≠ Recv sid (authenticate userId)) →
  connectedUsers (step clk i st).1 !! sid = None.
Proof.
  intros Hnone Hi. destruct i as [c|c e]; [done|].
  unfold step. case_decide; [|done].
  destruct e; simpl; try done.
  - rewrite lookup_insert_ne; [done|]. intros ->. by eapply Hi.
  - by apply on_disconnect_lookup_None.
Qed.

Lemma run_never_authenticated tr st sid :
  connectedUsers st !! sid = None →
  ¬ authenticated_in sid tr →
  connectedUsers (run tr st).1 !! sid = None.
Proof.
  revert st. induction tr as [|[clk i] tr IH]; intros st Hnone Hnever; [done|].
  rewrite run_cons. cbn [fst]. apply IH.
  - apply step_connectedUsers_None; [done|].
    intros uid ->. apply Hnever. exists clk, uid. by left.
  - intros (clk' & uid & Hin). apply Hnever. exists clk', uid. by right.
Qed.

(** ** The health route *)

Lemma health_sockets_field now node_env st :
  get "sockets" (health now node_env st) = Some (JNum (health_sockets st)).
Proof. by destruct node_env. Qed.

Lemma disconnect_count clk st sid uid :
  sid ∈ sockets st →
  connectedUsers st !! sid = Some uid →
  truthy uid = true →
  health_sockets (step clk (Recv sid disconnect) st).1 = (health_sockets st - 1)%Z.
Proof.
  intros Hin Hsome Ht. unfold step. rewrite decide_True by done.
  unfold health_sockets. cbn [fst handle connectedUsers].
  unfold on_disconnect. rewrite Hsome, Ht.
  rewrite map_size_delete_Some by eauto.
  assert (size (connectedUsers st) ≠ 0)
    by (apply (map_size_ne_0_lookup_2 _ sid); eauto).
  lia.
Qed.

(** What holds of the figure: the [sockets] field of [/health] is the number
    of entries of [connectedUsers].  A connection alone adds no entry, and a
    socket that never sent [authenticate] has none, so it is not counted,
    connected though it is.  When a socket bound to a non-empty user id
    (which is what the [disconnect] handler tests for) disconnects, the
    figure goes down by one; in particular right after its [authenticate]. *)
Theorem health_counts_authenticated_sockets :
  (∀ now node_env st,
     get "sockets" (health now node_env st)
     = Some (JNum (Z.of_nat (size (connectedUsers st)))))
  ∧ (∀ clk sid st,
       health_sockets (step clk (Connection sid) st).1 = health_sockets st)
  ∧ (∀ tr sid, ¬ authenticated_in sid tr →
       connectedUsers (run tr init).1 !! sid = None)
  ∧ (∀ clk st sid uid,
       sid ∈ sockets st → connectedUsers st !! sid = Some uid → truthy uid = true →
       health_sockets (step clk (Recv sid disconnect) st).1
       = (health_sockets st - 1)%Z)
  ∧ (∀ clk1 clk2 st sid uid,
       sid ∈ sockets st → truthy uid = true →
       let st1 := (step clk1 (Recv sid (authenticate uid)) st).1 in
       connectedUsers st1 !! sid = Some uid
       ∧ health_sockets (step clk2 (Recv sid disconnect) st1).1
         = (health_sockets st1 - 1)%Z).
Proof.
  split_and!.
  - intros. apply health_sockets_field.
  - done.
  - intros tr sid Hnever. by apply run_never_authenticated.
  - intros. by eapply disconnect_count.
  - intros clk1 clk2 st sid uid Hin Ht st1.
    assert (Hst1 : connectedUsers st1 !! sid = Some uid).
    { subst st1. unfold step. rewrite decide_True by done.
      simpl. by rewrite lookup_insert_eq. }
    split; [done|]. eapply disconnect_count; [|done|done].
    subst st1. unfold step. by rewrite decide_True by done.
Qed.

(** One socket connected and never authenticated; then authenticated as U. *)
Lemma health_counts_authenticated_sockets_witness :
  size (sockets nobody_viewing) = 1
  ∧ health_sockets nobody_viewing = 0%Z
  ∧ health_sockets (step (mkClock 1 1) (Recv "s1" (authenticate "U")) nobody_viewing).1 = 1%Z
  ∧ health_sockets
      (step (mkClock 2 2) (Recv "s1" disconnect)
         (step (mkClock 1 1) (Recv "s1" (authenticate "U")) nobody_viewing).1).1 = 0%Z.
Proof.
  destruct health_counts_authenticated_sockets as (_ & _ & _ & _ & Hdrop).
  destruct (Hdrop (mkClock 1 1) (mkClock 2 2) nobody_viewing "s1" "U")
    as [_ Hminus]; [by_eval|reflexivity|].
  split_and!; [by vm_compute|by vm_compute|by vm_compute|].
  rewrite Hminus. by vm_compute.
Defined.

(** C10. The claim's last clause fails on the code.  Socket s1 connects,
    sends [authenticate] with the empty string and disconnects: the
    [disconnect] handler looks the user id up and deletes the entry only
    [if (userId)], which the empty string fails, so the entry stays and
    [/health] still reports one socket when none is connected. *)
Theorem health_count_stays_after_empty_id_disconnect :
  get "sockets" (health 3 None empty_id_authenticated) = Some (JNum 1)
  ∧ sockets empty_id_disconnected = ∅
  ∧ connectedUsers empty_id_disconnected !! "s1" = Some ""
  ∧ get "sockets" (health 3 None empty_id_disconnected) = Some (JNum 1).
Proof. split_and!; by vm_compute. Qed.

(** ** Room membership along a trace *)

(** A socket gets into a case room only by its own [join:case]. *)
Lemma step_case_member clk i st sid c :
  sid ∈ members (rooms (step clk i st).1) (case_room c) →
  sid ∈ members (rooms st) (case_room c) ∨ i = Recv sid (join_case c).
Proof.
  destruct i as [x|x e]; [by left|].
  unfold step. case_decide; [|by left].
  destruct e; cbn [fst handle rooms on_authenticate on_join_case on_leave_case];
    try by left.
  - rewrite elem_of_members_join. intros [[Heq _]|Hold]; [|by left].
    by apply user_room_ne_case_room in Heq.
  - rewrite elem_of_members_join. intros [[Heq ->]|Hold]; [|by left].
    apply case_room_inj in Heq as ->. by right.
  - rewrite elem_of_members_leave. intros [Hold _]. by left.
  - rewrite elem_of_members_leave_all. intros [Hold _]. by left.
Qed.

Lemma step_members_connected clk i st :
  members_connected st → members_connected (step clk i st).1.
Proof.
  intros Hinv room sid. destruct i as [x|x e].
  - simpl. intros Hin. apply elem_of_union. right. by eapply Hinv.
  - unfold step. case_decide as Hx; [|by apply Hinv].
    destruct e; cbn [fst handle rooms sockets on_authenticate on_join_case on_leave_case];
      try by apply Hinv.
    + rewrite elem_of_members_join. intros [[_ ->]|Hold]; [done|by eapply Hinv].
    + rewrite elem_of_members_join. intros [[_ ->]|Hold]; [done|by eapply Hinv].
    + rewrite elem_of_members_leave. intros [Hold _]. by eapply Hinv.
    + rewrite elem_of_members_leave_all. intros [Hold Hne].
      apply elem_of_difference. split; [by eapply Hinv|]. set_solver.
Qed.

Lemma run_members_connected tr st :
  members_connected st → members_connected (run tr st).1.
Proof.
  revert st. induction tr as [|[clk i] tr IH]; intros st Hinv; [done|].
  rewrite run_cons. cbn [fst]. by apply IH, step_members_connected.
Qed.

Lemma run_case_member tr st sid c :
  sid ∈ members (rooms (run tr st).1) (case_room c) →
  sid ∈ members (rooms st) (case_room c)
  ∨ ∃ clk, (clk, Recv sid (join_case c)) ∈ tr.
Proof.
  revert st. induction tr as [|[clk i] tr IH]; intros st; [by left|].
  rewrite run_cons. cbn [fst]. intros Hin.
  destruct (IH _ Hin) as [Hstep|[clk' Hlater]].
  - destruct (step_case_member _ _ _ _ _ Hstep) as [Hold| ->]; [by left|].
    right. exists clk. by left.
  - right. exists clk'. by right.
Qed.

Lemma members_init room : members (rooms init) room = ∅.
Proof. done. Qed.

(** C5, as stated, fails: after connecting and sending [join:case] only,
    socket s1 is a member of the room of case 42 although it has never
    authenticated and has no entry in [connectedUsers]. *)
Lemma unauthenticated_socket_joins_case_room :
  "s1" ∈ members (rooms (run join_without_authenticate init).1) (case_room "42")
  ∧ ¬ authenticated_in "s1" join_without_authenticate
  ∧ connectedUsers (run join_without_authenticate init).1 !! "s1" = None.
Proof.
  split_and!.
  - by_eval.
  - intros (clk & uid & Hin). unfold join_without_authenticate in Hin.
    repeat (apply elem_of_cons in Hin as [Heq|Hin]; [discriminate|]).
    by apply elem_of_nil in Hin.
  - by vm_compute.
Qed.

(** C5, amended. The [join:case] handler does not look at authentication:
    a [join:case] from any connected socket makes it a member of the case
    room and leaves [connectedUsers] alone.  At every reachable state the
    members of a case room are connected sockets that sent [join:case] for
    that case. *)
Theorem join_case_ignores_authentication :
  (∀ clk st sid c,
     sid ∈ sockets st →
     sid ∈ members (rooms (step clk (Recv sid (join_case c)) st).1) (case_room c)
     ∧ connectedUsers (step clk (Recv sid (join_case c)) st).1 = connectedUsers st)
  ∧ (∀ tr sid c,
       sid ∈ members (rooms (run tr init).1) (case_room c) →
       sid ∈ sockets (run tr init).1
       ∧ ∃ clk, (clk, Recv sid (join_case c)) ∈ tr).
Proof.
  split.
  - intros clk st sid c Hin. unfold step. rewrite decide_True by done.
    split; [|done]. cbn [fst handle rooms on_join_case].
    apply elem_of_members_join. by left.
  - intros tr sid c Hin. split.
    + eapply (run_members_connected tr init); [|done].
      intros room x Hx. by rewrite members_init in Hx.
    + destruct (run_case_member _ _ _ _ Hin) as [Hinit|Hsent]; [|done].
      by rewrite members_init in Hinit.
Qed.

Lemma join_case_ignores_authentication_witness :
  "s1" ∈ sockets nobody_viewing
  ∧ connectedUsers nobody_viewing !! "s1" = None
  ∧ "s1" ∈ members
      (rooms (step (mkClock 1 1) (Recv "s1" (join_case "42")) nobody_viewing).1)
      (case_room "42").
Proof.
  assert (Hsrc : "s1" ∈ sockets nobody_viewing) by by_eval.
  split_and!; [done|by vm_compute|].
  exact (proj1 (proj1 join_case_ignores_authentication
                  (mkClock 1 1) nobody_viewing "s1" "42" Hsrc)).
Defined.

(** ** Authenticating again *)

Lemma step_authenticate clk st c userId :
  c ∈ sockets st →
  (step clk (Recv c (authenticate userId)) st).1 = on_authenticate c userId st.
Proof. intros Hc. unfold step. by rewrite decide_True by done. Qed.

(** C6, as stated, fails: the state after authenticating as i1 and then as
    i2 differs from the state after authenticating as i2 alone, because the
    socket is still in the room of i1, and a chat message addressed to i1
    still reaches it. *)
Lemma reauthenticated_socket_keeps_old_room :
  twice_authenticated ≠ once_authenticated
  ∧ "s1" ∈ members (rooms twice_authenticated) (user_room "i1")
  ∧ ("s1" ∉ members (rooms once_authenticated) (user_room "i1"))
  ∧ received "s1"
      (step (mkClock 3 3) (Recv "s1" (chat_send to_i1)) twice_authenticated).2
    = [ mkDelivery "s1" "chat:receive" (chat_receive (mkClock 3 3) to_i1) ].
Proof.
  assert (Hin : "s1" ∈ members (rooms twice_authenticated) (user_room "i1"))
    by by_eval.
  assert (Hout : "s1" ∉ members (rooms once_authenticated) (user_room "i1"))
    by by_eval.
  split_and!; [|done|done|by vm_compute].
  intros Heq. by rewrite Heq in Hin.
Qed.

(** C6, amended. Authenticating a connected socket a second time is an
    ordinary step: the entry of the socket in [connectedUsers] is
    overwritten, so that map is the same as after the second [authenticate]
    alone, and the socket is in the room of the new identity.  Rooms are
    only ever joined by [authenticate]: the rooms are those reached by the
    second [authenticate] alone plus the socket in the room of the first
    identity, so a chat message addressed to the first identity still
    reaches the socket, once. *)
Theorem reauthenticate_rebinds_and_keeps_rooms clk1 clk2 st c i1 i2 :
  c ∈ sockets st →
  let s12 := (step clk2 (Recv c (authenticate i2))
                (step clk1 (Recv c (authenticate i1)) st).1).1 in
  let s2 := (step clk2 (Recv c (authenticate i2)) st).1 in
  connectedUsers s12 = connectedUsers s2
  ∧ connectedUsers s12 !! c = Some i2
  ∧ sockets s12 = sockets s2
  ∧ c ∈ members (rooms s12) (user_room i2)
  ∧ c ∈ members (rooms s12) (user_room i1)
  ∧ (∀ room x, x ∈ members (rooms s12) room
               ↔ x ∈ members (rooms s2) room ∨ (room = user_room i1 ∧ x = c))
  ∧ (∀ clk src data, src ∈ sockets s12 → receiverId data = i1 →
       length (received c (step clk (Recv src (chat_send data)) s12).2) = 1).
Proof.
  intros Hc s12 s2.
  assert (Hs12 : s12 = on_authenticate c i2 (on_authenticate c i1 st)).
  { subst s12. rewrite (step_authenticate clk1 st) by exact Hc.
    by rewrite step_authenticate by exact Hc. }
  assert (Hs2 : s2 = on_authenticate c i2 st)
    by (subst s2; by rewrite step_authenticate).
  clearbody s12 s2. subst s12 s2.
  assert (Hold : c ∈ members (rooms (on_authenticate c i2 (on_authenticate c i1 st)))
                     (user_room i1)).
  { apply elem_of_members_join. right. apply elem_of_members_join. by left. }
  split; [|split; [|split; [|split; [|split; [|split]]]]].
  - apply insert_insert_eq.
  - apply lookup_insert_eq.
  - done.
  - apply elem_of_members_join. by left.
  - exact Hold.
  - intros room x. cbn [on_authenticate rooms].
    rewrite !elem_of_members_join. naive_solver.
  - intros clk src data Hsrc <-. rewrite received_chat_send by done.
    by rewrite decide_True.
Qed.

Lemma reauthenticate_rebinds_and_keeps_rooms_witness :
  "s1" ∈ sockets nobody_viewing
  ∧ connectedUsers twice_authenticated = connectedUsers once_authenticated
  ∧ connectedUsers twice_authenticated !! "s1" = Some "i2".
Proof.
  assert (Hsrc : "s1" ∈ sockets nobody_viewing) by by_eval.
  destruct (reauthenticate_rebinds_and_keeps_rooms (mkClock 1 1) (mkClock 2 2)
              nobody_viewing "s1" "i1" "i2" Hsrc) as (Husers & Hbound & _).
  by split_and!.
Defined.

(** ** Message ids *)

Lemma msg_id_inj t1 t2 : msg_id t1 = msg_id t2 → t1 = t2.
Proof.
  unfold msg_id. intros H. by simplify_eq/=.
Qed.

(** Ids are told apart by the clock reading alone. *)
Lemma chat_receive_id_eq clk1 clk2 d1 d2 :
  get "id" (chat_receive clk1 d1) = get "id" (chat_receive clk2 d2)
  ↔ date_now clk1 = date_now clk2.
Proof.
  change (get "id" (chat_receive clk1 d1))
    with (Some (JStr (msg_id (date_now clk1)))).
  change (get "id" (chat_receive clk2 d2))
    with (Some (JStr (msg_id (date_now clk2)))).
  split.
  - intros Heq. apply msg_id_inj. congruence.
  - by intros ->.
Qed.

(** C7. Two different chat messages handled while [Date.now()] reads the
    same millisecond are sent out with one and the same id. *)
Theorem chat_ids_collide_at_same_instant :
  hello ≠ goodbye
  ∧ ∃ m1 m2,
      received "b1" (run same_instant two_devices).2
      = [ mkDelivery "b1" "chat:receive" m1; mkDelivery "b1" "chat:receive" m2 ]
      ∧ get "message" m1 = Some (JStr "hello")
      ∧ get "message" m2 = Some (JStr "goodbye")
      ∧ get "id" m1 = Some (JStr "msg-1700000000000")
      ∧ get "id" m2 = Some (JStr "msg-1700000000000").
Proof.
  split; [done|].
  exists (chat_receive (mkClock 1700000000000 1700000000000) hello),
         (chat_receive (mkClock 1700000000000 1700000000000) goodbye).
  split_and!; by vm_compute.
Qed.

(** ** The response cache *)

Section ResponseCacheProperties.

Variable routes : Request → RouteResult.
Variable errorHandler : json → Request → Reply.

Local Abbreviation mw := (cacheMiddleware routes errorHandler).
Local Abbreviation chain := (next routes errorHandler).

Lemma cacheMiddleware_not_get t_req t_res req cache :
  method req ≠ "GET" →
  mw t_req t_res req cache = (cache, from_handler (chain req)).
Proof.
  intros Hm. unfold mw, cacheMiddleware.
  by rewrite (proj2 (String.eqb_neq _ _) Hm).
Qed.

Lemma cacheMiddleware_fresh t_req t_res req cache e :
  method req = "GET" →
  cache !! originalUrl req = Some e →
  (t_req - timestamp e < 30 * 1000)%Z →
  mw t_req t_res req cache = (cache, from_cache (data e)).
Proof.
  intros Hm He Hfresh. unfold mw, cacheMiddleware.
  rewrite Hm, String.eqb_refl, He. cbn [negb].
  by rewrite bool_decide_eq_true_2.
Qed.

Lemma cacheMiddleware_stale t_req t_res req cache e :
  method req = "GET" →
  cache !! originalUrl req = Some e →
  (30 * 1000 ≤ t_req - timestamp e)%Z →
  mw t_req t_res req cache
  = (res_json (originalUrl req) t_res (chain req) cache, from_handler (chain req)).
Proof.
  intros Hm He Hstale. unfold mw, cacheMiddleware.
  rewrite Hm, String.eqb_refl, He. cbn [negb].
  rewrite bool_decide_eq_false_2; [done|]. unfold CACHE_TTL. lia.
Qed.

Lemma cacheMiddleware_absent t_req t_res req cache :
  method req = "GET" →
  cache !! originalUrl req = None →
  mw t_req t_res req cache
  = (res_json (originalUrl req) t_res (chain req) cache, from_handler (chain req)).
Proof.
  intros Hm He. unfold mw, cacheMiddleware.
  by rewrite Hm, String.eqb_refl, He.
Qed.

(** The middleware either leaves the cache alone or passes it through the
    replaced [res.json] under the key [originalUrl]. *)
Lemma cacheMiddleware_cache t_req t_res req cache :
  (mw t_req t_res req cache).1 = cache
  ∨ (method req = "GET"
     ∧ (mw t_req t_res req cache).1
       = res_json (originalUrl req) t_res (chain req) cache).
Proof.
  unfold mw, cacheMiddleware.
  destruct (String.eqb_spec (method req) "GET") as [Hm|Hm]; cbn [negb]; [|by left].
  destruct (cache !! originalUrl req) as [e|]; [|by right].
  case_bool_decide; [by left|by right].
Qed.

Lemma cacheMiddleware_miss_stores t_req t_res req cache status d :
  method req = "GET" →
  recomputed (mw t_req t_res req cache).2 = true →
  chain req = reply_json status d →
  (mw t_req t_res req cache).1 !! originalUrl req = Some (mkCacheEntry d t_res).
Proof.
  intros Hm. unfold mw, cacheMiddleware, chain.
  rewrite Hm, String.eqb_refl. cbn [negb].
  destruct (cache !! originalUrl req) as [e|].
  - case_bool_decide; [done|]. intros _ ->. apply lookup_insert_eq.
  - intros _ ->. apply lookup_insert_eq.
Qed.

Lemma res_json_lookup_ne key k t r (cache : gmap string CacheEntry) :
  k ≠ key → res_json key t r cache !! k = cache !! k.
Proof. intros Hne. destruct r; [|done]. by apply lookup_insert_ne. Qed.

Lemma res_json_keeps key k t r (cache : gmap string CacheEntry) :
  is_Some (cache !! k) → is_Some (res_json key t r cache !! k).
Proof.
  intros Hk. destruct r as [status d|]; [|done]. simpl.
  rewrite lookup_insert. by case_decide.
Qed.

(** C3. A GET request whose [originalUrl] has an entry stamped less than
    30 s before the request is answered with the stored data: the chain
    behind the middleware does not run and the cache is untouched.  At 30 s
    or more the stored data is not served: the chain runs and its answer
    is returned.  An entry is created with the clock reading at which the
    chain answers, under the [originalUrl] of the request and under no
    other key.  A request that is not a GET goes straight to the chain and
    leaves the cache as it is. *)
Theorem cache_entry_served_within_window :
  (∀ t_req t_res req cache e,
     method req = "GET" → cache !! originalUrl req = Some e →
     (t_req - timestamp e < 30 * 1000)%Z →
     mw t_req t_res req cache = (cache, from_cache (data e))
     ∧ recomputed (mw t_req t_res req cache).2 = false)
  ∧ (∀ t_req t_res req cache e,
       method req = "GET" → cache !! originalUrl req = Some e →
       (30 * 1000 ≤ t_req - timestamp e)%Z →
       (mw t_req t_res req cache).2 = from_handler (chain req)
       ∧ recomputed (mw t_req t_res req cache).2 = true)
  ∧ (∀ t_req t_res req cache status d,
       method req = "GET" →
       recomputed (mw t_req t_res req cache).2 = true →
       chain req = reply_json status d →
       (mw t_req t_res req cache).1 !! originalUrl req
       = Some (mkCacheEntry d t_res))
  ∧ (∀ t_req t_res req cache k,
       k ≠ originalUrl req →
       (mw t_req t_res req cache).1 !! k = cache !! k)
  ∧ (∀ t_req t_res req cache,
       method req ≠ "GET" →
       mw t_req t_res req cache = (cache, from_handler (chain req))).
Proof.
  split_and!.
  - intros * Hm He Hfresh. by rewrite (cacheMiddleware_fresh _ _ _ _ e).
  - intros * Hm He Hstale. by rewrite (cacheMiddleware_stale _ _ _ _ e).
  - apply cacheMiddleware_miss_stores.
  - intros t_req t_res req cache k Hne.
    destruct (cacheMiddleware_cache t_req t_res req cache) as [->|[_ ->]]; [done|].
    by apply res_json_lookup_ne.
  - apply cacheMiddleware_not_get.
Qed.

(** C4, amended. Every body the chain sends through [res.json] in answer
    to a GET request that was not served from the cache is stored,
    whatever its status code; an answer sent by other means is not stored.
    A request that is not a GET leaves the cache as it is, and no request
    removes an entry. *)
Theorem cache_stores_every_json_reply :
  (∀ t_req t_res req cache status d,
     method req = "GET" →
     recomputed (mw t_req t_res req cache).2 = true →
     chain req = reply_json status d →
     (mw t_req t_res req cache).1 !! originalUrl req
     = Some (mkCacheEntry d t_res))
  ∧ (∀ t_req t_res req cache status raw,
       chain req = reply_other status raw →
       (mw t_req t_res req cache).1 = cache)
  ∧ (∀ t_req t_res req cache,
       method req ≠ "GET" → (mw t_req t_res req cache).1 = cache)
  ∧ (∀ t_req t_res req cache k,
       is_Some (cache !! k) → is_Some ((mw t_req t_res req cache).1 !! k)).
Proof.
  split_and!.
  - apply cacheMiddleware_miss_stores.
  - intros t_req t_res req cache status raw Hraw.
    destruct (cacheMiddleware_cache t_req t_res req cache) as [->|[_ ->]]; [done|].
    by rewrite Hraw.
  - intros * Hm. by rewrite cacheMiddleware_not_get.
  - intros t_req t_res req cache k Hk.
    destruct (cacheMiddleware_cache t_req t_res req cache) as [->|[_ ->]]; [done|].
    by apply res_json_keeps.
Qed.

End ResponseCacheProperties.

Lemma cache_entry_served_within_window_witness :
  cases_cached !! "/api/cases?page=1"
  = Some (mkCacheEntry (JArr [JStr "case 1"; JStr "case 2"]) 1000)
  ∧ cacheMiddleware no_routes answer_500 (1000 + 29000) (1000 + 29010) get_cases cases_cached
    = (cases_cached, from_cache (JArr [JStr "case 1"; JStr "case 2"]))
  ∧ (cacheMiddleware no_routes answer_500 (1000 + 31000) (1000 + 31010) get_cases cases_cached).2
    = from_handler (reply_json 404 not_found).
Proof.
  assert (He : cases_cached !! originalUrl get_cases
               = Some (mkCacheEntry (JArr [JStr "case 1"; JStr "case 2"]) 1000))
    by (by vm_compute).
  destruct (cache_entry_served_within_window no_routes answer_500)
    as (Hfresh & Hstale & _).
  split_and!.
  - exact He.
  - refine (proj1 (Hfresh (1000 + 29000)%Z (1000 + 29010)%Z get_cases cases_cached _ _ He _));
      [reflexivity|simpl; lia].
  - refine (proj1 (Hstale (1000 + 31000)%Z (1000 + 31010)%Z get_cases cases_cached _ _ He _));
      [reflexivity|simpl; lia].
Defined.

(** C4, as stated, fails: a GET that no route matches is answered 404 by
    the 404 handler through [res.json]; that error body is stored, and a
    second request one second later is answered with it from the cache. *)
Lemma error_reply_is_cached_and_served :
  is_error (next no_routes answer_500 get_missing) = true
  ∧ cacheMiddleware no_routes answer_500 0 5 get_missing ∅
    = (missing_cached, from_handler (reply_json 404 not_found))
  ∧ missing_cached !! "/api/cases/999" = Some (mkCacheEntry not_found 5)
  ∧ cacheMiddleware no_routes answer_500 1000 1005 get_missing missing_cached
    = (missing_cached, from_cache not_found).
Proof. split_and!; by vm_compute. Qed.

Lemma cache_stores_every_json_reply_witness :
  missing_cached !! "/api/cases/999" = Some (mkCacheEntry not_found 5)
  ∧ (cacheMiddleware cases_only answer_500 2000 2005 post_cases cases_cached).1
    = cases_cached.
Proof.
  destruct (cache_stores_every_json_reply no_routes answer_500) as (Hstore & _).
  destruct (cache_stores_every_json_reply cases_only answer_500) as (_ & _ & Hpost & _).
  split.
  - apply (Hstore 0%Z 5%Z get_missing ∅ 404 not_found); reflexivity.
  - apply Hpost. discriminate.
Defined.

(** * Further properties of the socket handlers *)

(** X1. [markChatAsRead(senderId, receiverId)] sent by a connected socket
    changes no state; every socket in the room of [senderId] gets exactly
    one [chat:read:confirm] naming [receiverId], and no other socket gets
    anything. *)
Theorem mark_read_confirms_to_sender clk st src senderId receiverId sid :
  src ∈ sockets st →
  (step clk (Recv src (markChatAsRead senderId receiverId)) st).1 = st
  ∧ received sid (step clk (Recv src (markChatAsRead senderId receiverId)) st).2
    = if decide (sid ∈ members (rooms st) (user_room senderId))
      then [ mkDelivery sid "chat:read:confirm" (JObj [("userId", JStr receiverId)]) ]
      else [].
Proof.
  intros Hsrc. unfold markChatAsRead. rewrite step_publish by done.
  split; [done|]. cbn [snd emits]. unfold on_chat_read.
  by rewrite deliveries_singleton, received_fan_out_eq.
Qed.

Lemma mark_read_confirms_to_sender_witness :
  received "a1" (step (mkClock 9 9) (Recv "b1" (markChatAsRead "A" "B")) two_devices).2
  = [ mkDelivery "a1" "chat:read:confirm" (JObj [("userId", JStr "B")]) ]
  ∧ received "b2" (step (mkClock 9 9) (Recv "b1" (markChatAsRead "A" "B")) two_devices).2
    = [].
Proof.
  assert (Hsrc : "b1" ∈ sockets two_devices) by by_eval.
  split.
  - rewrite (proj2 (mark_read_confirms_to_sender (mkClock 9 9) two_devices
                      "b1" "A" "B" "a1" Hsrc)).
    apply decide_True. by_eval.
  - rewrite (proj2 (mark_read_confirms_to_sender (mkClock 9 9) two_devices
                      "b1" "A" "B" "b2" Hsrc)).
    apply decide_False. by_eval.
Defined.

(** X2. [sendNotification(recipientId, notification)] sent by a connected
    socket changes no state and hands the notification, as it was sent, once
    to every socket in the room of the recipient and to nobody else. *)
Theorem notification_reaches_recipient clk st src recipient n sid :
  src ∈ sockets st →
  (step clk (Recv src (sendNotification recipient n)) st).1 = st
  ∧ received sid (step clk (Recv src (sendNotification recipient n)) st).2
    = if decide (sid ∈ members (rooms st) (user_room recipient))
      then [ mkDelivery sid "notification:receive" n ]
      else [].
Proof.
  intros Hsrc. unfold sendNotification. rewrite step_publish by done.
  split; [done|]. cbn [snd emits]. unfold on_notification_send.
  by rewrite deliveries_singleton, received_fan_out_eq.
Qed.

Lemma notification_reaches_recipient_witness :
  received "b2"
    (step (mkClock 9 9) (Recv "a1" (sendNotification "B" (JStr "hearing moved")))
       two_devices).2
  = [ mkDelivery "b2" "notification:receive" (JStr "hearing moved") ].
Proof.
  assert (Hsrc : "a1" ∈ sockets two_devices) by by_eval.
  rewrite (proj2 (notification_reaches_recipient (mkClock 9 9) two_devices
                    "a1" "B" (JStr "hearing moved") "b2" Hsrc)).
  apply decide_True. by_eval.
Defined.

(** ** Joining and leaving *)

Lemma join_join room sid (rs : gmap string (gset string)) :
  join room sid (join room sid rs) = join room sid rs.
Proof.
  unfold join at 1. rewrite members_join_eq. unfold join.
  rewrite insert_insert_eq. f_equal. set_solver.
Qed.

Lemma lookup_members (rs : gmap string (gset string)) room s :
  rs !! room = Some s → members rs room = s.
Proof. intros Hs. unfold members. by rewrite Hs. Qed.

Lemma leave_not_member room sid (rs : gmap string (gset string)) :
  no_empty_rooms rs → sid ∉ members rs room → leave room sid rs = rs.
Proof.
  intros Hne Hnot. unfold leave.
  destruct (rs !! room) as [s|] eqn:Hs; [|done].
  rewrite (lookup_members _ _ _ Hs) in Hnot.
  assert (Hsame : s ∖ {[sid]} = s) by set_solver.
  rewrite Hsame. rewrite decide_False by by eapply Hne.
  by apply insert_id.
Qed.

Lemma leave_join room sid (rs : gmap string (gset string)) :
  no_empty_rooms rs → sid ∉ members rs room →
  leave room sid (join room sid rs) = rs.
Proof.
  intros Hne Hnot. unfold leave, join. rewrite lookup_insert_eq.
  assert (Hback : ({[sid]} ∪ members rs room) ∖ {[sid]} = members rs room)
    by set_solver.
  rewrite Hback. unfold members in *.
  destruct (rs !! room) as [s|] eqn:Hs; simpl in *.
  - rewrite decide_False by by eapply Hne.
    rewrite insert_insert_eq. by apply insert_id.
  - rewrite decide_True by done. by apply delete_insert_id.
Qed.

Lemma step_join_case clk st sid c :
  sid ∈ sockets st →
  (step clk (Recv sid (join_case c)) st).1 = on_join_case sid c st.
Proof. intros Hin. unfold step. by rewrite decide_True by done. Qed.

Lemma step_leave_case clk st sid c :
  sid ∈ sockets st →
  (step clk (Recv sid (leave_case c)) st).1 = on_leave_case sid c st.
Proof. intros Hin. unfold step. by rewrite decide_True by done. Qed.

(** X3. For a connected socket, in a state without empty rooms: sending
    [join:case] a second time changes nothing; [leave:case] from a socket
    that is not in the room changes nothing; and [leave:case] right after
    [join:case] gives back the state before the join, when the socket was
    not in the room before. *)
Theorem join_leave_case_laws clk1 clk2 st sid c :
  sid ∈ sockets st →
  no_empty_rooms (rooms st) →
  let joined := (step clk1 (Recv sid (joinCaseRoom c)) st).1 in
  (step clk2 (Recv sid (joinCaseRoom c)) joined).1 = joined
  ∧ (sid ∉ members (rooms st) (case_room c) →
     (step clk2 (Recv sid (leaveCaseRoom c)) st).1 = st
     ∧ (step clk2 (Recv sid (leaveCaseRoom c)) joined).1 = st).
Proof.
  intros Hin Hne joined. subst joined. unfold joinCaseRoom, leaveCaseRoom.
  rewrite (step_join_case clk1 st) by done.
  rewrite step_join_case by done.
  rewrite !step_leave_case by done.
  unfold on_join_case, on_leave_case. cbn [connectedUsers rooms sockets].
  split.
  - by rewrite join_join.
  - intros Hnot. rewrite leave_not_member, leave_join by done.
    by destruct st.
Qed.

Lemma join_leave_case_laws_witness :
  (step (mkClock 2 2) (Recv "s1" (leaveCaseRoom "42"))
     (step (mkClock 1 1) (Recv "s1" (joinCaseRoom "42")) nobody_viewing).1).1
  = nobody_viewing.
Proof.
  refine (proj2 (proj2 (join_leave_case_laws (mkClock 1 1) (mkClock 2 2)
                          nobody_viewing "s1" "42" _ _) _)).
  - by_eval.
  - intros room s Hs. by vm_compute in Hs.
  - by_eval.
Defined.

(** ** Invariants of reachable states *)

Lemma join_no_empty room sid (rs : gmap string (gset string)) :
  no_empty_rooms rs → no_empty_rooms (join room sid rs).
Proof.
  intros Hne r s. unfold join. rewrite lookup_insert. case_decide.
  - intros [= <-]. set_solver.
  - apply Hne.
Qed.

Lemma leave_no_empty room sid (rs : gmap string (gset string)) :
  no_empty_rooms rs → no_empty_rooms (leave room sid rs).
Proof.
  intros Hne r s. unfold leave.
  destruct (rs !! room) as [s0|] eqn:Hs0; [|apply Hne].
  case_decide as Hempty.
  - rewrite lookup_delete. case_decide; [done|apply Hne].
  - rewrite lookup_insert. case_decide; [|apply Hne]. by intros [= <-].
Qed.

Lemma leave_all_no_empty sid (rs : gmap string (gset string)) :
  no_empty_rooms (leave_all sid rs).
Proof.
  intros r s Hs. unfold leave_all in Hs.
  by apply map_lookup_filter_Some in Hs as [_ Hne].
Qed.

Lemma step_no_empty_rooms clk i st :
  no_empty_rooms (rooms st) → no_empty_rooms (rooms (step clk i st).1).
Proof.
  intros Hne. destruct i as [x|x e]; [done|].
  unfold step. case_decide; [|done].
  destruct e; cbn [fst handle rooms on_authenticate on_join_case on_leave_case];
    try done.
  - by apply join_no_empty.
  - by apply join_no_empty.
  - by apply leave_no_empty.
  - apply leave_all_no_empty.
Qed.

Lemma run_no_empty_rooms tr st :
  no_empty_rooms (rooms st) → no_empty_rooms (rooms (run tr st).1).
Proof.
  revert st. induction tr as [|[clk i] tr IH]; intros st Hne; [done|].
  rewrite run_cons. cbn [fst]. by apply IH, step_no_empty_rooms.
Qed.

(** X4. At every state the server can reach, each room the adapter holds
    has at least one member, and every member of a room is a connected
    socket. *)
Theorem reachable_rooms_are_live tr :
  no_empty_rooms (rooms (run tr init).1)
  ∧ members_connected (run tr init).1.
Proof.
  split.
  - apply run_no_empty_rooms. intros room s Hs. unfold init in Hs.
    cbn [rooms] in Hs. by rewrite lookup_empty in Hs.
  - apply run_members_connected. intros room x Hx. by rewrite members_init in Hx.
Qed.

(** ** Disconnecting *)

Lemma received_deliveries_nonmember sid rs es :
  (∀ room, sid ∉ members rs room) → received sid (deliveries rs es) = [].
Proof.
  intros Hnot. induction es as [|e es IH]; [done|].
  rewrite deliveries_cons, received_app, IH, received_fan_out_eq.
  by rewrite decide_False by apply Hnot.
Qed.

(** A step delivers nothing or the fan-out of what its handler emits. *)
Lemma step_deliveries clk i st :
  (step clk i st).2 = []
  ∨ ∃ sid e, i = Recv sid e ∧ sid ∈ sockets st
             ∧ (step clk i st).2 = deliveries (rooms st) (emits clk e).
Proof.
  destruct i as [x|x e]; [by left|].
  unfold step. case_decide; [|by left]. right. by exists x, e.
Qed.

Lemma step_cut_off clk i st sid :
  cut_off sid st → i ≠ Connection sid →
  cut_off sid (step clk i st).1 ∧ received sid (step clk i st).2 = [].
Proof.
  intros [Hsock Hrooms] Hi. split.
  - destruct i as [x|x e].
    + split; [|done]. simpl. rewrite elem_of_union, elem_of_singleton.
      intros [->|?]; done.
    + unfold step. case_decide as Hx; [|done].
      assert (Hne : sid ≠ x) by (intros ->; done).
      destruct e; cbn [fst handle]; try done.
      * split; [done|]. intros room. cbn [rooms on_authenticate].
        rewrite elem_of_members_join. intros [[_ ?]|?]; [done|by eapply Hrooms].
      * split; [done|]. intros room. cbn [rooms on_join_case].
        rewrite elem_of_members_join. intros [[_ ?]|?]; [done|by eapply Hrooms].
      * split; [done|]. intros room. cbn [rooms on_leave_case].
        rewrite elem_of_members_leave. intros [? _]. by eapply Hrooms.
      * split; cbn [rooms sockets].
        -- rewrite elem_of_difference. intros [? _]. done.
        -- intros room. rewrite elem_of_members_leave_all. intros [? _].
           by eapply Hrooms.
  - destruct (step_deliveries clk i st) as [->|(? & ? & _ & _ & ->)]; [done|].
    by apply received_deliveries_nonmember.
Qed.

Lemma run_cut_off tr st sid :
  cut_off sid st → never_reconnects sid tr →
  cut_off sid (run tr st).1 ∧ received sid (run tr st).2 = [].
Proof.
  revert st. induction tr as [|[clk i] tr IH]; intros st Hcut Hnever; [done|].
  rewrite run_cons. cbn [fst snd].
  destruct (step_cut_off clk i st sid Hcut) as [Hcut1 Hnone1].
  { intros ->. apply (Hnever clk). by left. }
  destruct (IH (step clk i st).1 Hcut1) as [Hcut2 Hnone2].
  { intros clk' Hin. apply (Hnever clk'). by right. }
  split; [done|]. by rewrite received_app, Hnone1, Hnone2.
Qed.

(** X5. Once a connected socket disconnects it is cut off for good: after
    any further connections and events, as long as no connection is made
    under its id again, it is not connected and is in no room, nothing of
    what any socket published in between was handed to it, and an event
    still named for it is ignored.  The disconnect leaves the room
    memberships of all other sockets as they were. *)
Theorem disconnected_socket_is_cut_off clk st sid tr :
  sid ∈ sockets st →
  never_reconnects sid tr →
  let st' := (step clk (Recv sid disconnect) st).1 in
  (sid ∉ sockets (run tr st').1)
  ∧ (∀ room, sid ∉ members (rooms (run tr st').1) room)
  ∧ received sid (run tr st').2 = []
  ∧ (∀ clk' e, step clk' (Recv sid e) (run tr st').1 = ((run tr st').1, []))
  ∧ (∀ room x, x ≠ sid →
       x ∈ members (rooms st') room ↔ x ∈ members (rooms st) room).
Proof.
  intros Hin Hnever st'.
  assert (Hst' : st' = {| connectedUsers := on_disconnect sid (connectedUsers st);
                          rooms := leave_all sid (rooms st);
                          sockets := sockets st ∖ {[sid]} |}).
  { subst st'. unfold step. by rewrite decide_True by done. }
  assert (Hcut : cut_off sid st').
  { rewrite Hst'. split; cbn [rooms sockets]; [set_solver|].
    intros room. rewrite elem_of_members_leave_all. naive_solver. }
  destruct (run_cut_off tr st' sid Hcut Hnever) as [[Hsock Hrooms] Hnone].
  split_and!; [done|done|done| |].
  - intros clk' e. unfold step. by rewrite decide_False by done.
  - intros room x Hx. rewrite Hst'. cbn [rooms].
    rewrite elem_of_members_leave_all. naive_solver.
Qed.

Lemma disconnected_socket_is_cut_off_witness :
  never_reconnects "b2" after_b2_left
  ∧ received "b2"
      (run after_b2_left (step (mkClock 10 10) (Recv "b2" disconnect) two_devices).1).2
    = []
  ∧ length
      (received "b1"
         (run after_b2_left (step (mkClock 10 10) (Recv "b2" disconnect) two_devices).1).2)
    = 2.
Proof.
  assert (Hnever : never_reconnects "b2" after_b2_left).
  { intros clk Hin.
    unfold after_b2_left, authenticateSocket, sendChatMessage, joinCaseRoom,
      sendNotification in Hin.
    repeat (apply elem_of_cons in Hin as [Heq|Hin]; [by simplify_eq|]).
    by apply elem_of_nil in Hin. }
  split; [exact Hnever|]. split; [|by vm_compute].
  refine (proj1 (proj2 (proj2 (disconnected_socket_is_cut_off (mkClock 10 10)
                                  two_devices "b2" after_b2_left _ Hnever)))).
  by_eval.
Defined.

(** ** Who gets packets *)

Lemma step_sockets clk i st sid :
  sid ∈ sockets (step clk i st).1 → sid ∈ sockets st ∨ i = Connection sid.
Proof.
  destruct i as [x|x e].
  - simpl. rewrite elem_of_union, elem_of_singleton. naive_solver.
  - unfold step. case_decide; [|by left].
    destruct e; cbn [fst handle sockets on_authenticate on_join_case on_leave_case];
      try by left.
    rewrite elem_of_difference. naive_solver.
Qed.

Lemma step_delivery_connected clk i st d :
  members_connected st → d ∈ (step clk i st).2 → to d ∈ sockets st.
Proof.
  intros Hinv Hd.
  destruct (step_deliveries clk i st) as [Hnil|(sid & e & _ & _ & Hds)].
  - rewrite Hnil in Hd. by apply elem_of_nil in Hd.
  - rewrite Hds in Hd. unfold deliveries in Hd.
    apply list_elem_of_bind in Hd as (em & Hd & _).
    apply elem_of_fan_out in Hd as [Hmem _]. by eapply Hinv.
Qed.

Lemma run_sockets tr st sid :
  sid ∈ sockets (run tr st).1 →
  sid ∈ sockets st ∨ ∃ clk, (clk, Connection sid) ∈ tr.
Proof.
  revert st. induction tr as [|[clk i] tr IH]; intros st; [by left|].
  rewrite run_cons. cbn [fst]. intros Hin.
  destruct (IH _ Hin) as [Hstep|[clk' Hlater]].
  - destruct (step_sockets _ _ _ _ Hstep) as [Hold| ->]; [by left|].
    right. exists clk. by left.
  - right. exists clk'. by right.
Qed.

Lemma run_delivery_connected tr st d :
  members_connected st →
  d ∈ (run tr st).2 →
  to d ∈ sockets st ∨ ∃ clk, (clk, Connection (to d)) ∈ tr.
Proof.
  revert st. induction tr as [|[clk i] tr IH]; intros st Hinv.
  - intros Hd. by apply elem_of_nil in Hd.
  - rewrite run_cons. cbn [snd]. rewrite elem_of_app. intros [Hd|Hd].
    + left. by eapply step_delivery_connected.
    + destruct (IH _ (step_members_connected clk i st Hinv) Hd) as [Hstep|[clk' Hl]].
      * destruct (step_sockets _ _ _ _ Hstep) as [Hold| ->]; [by left|].
        right. exists clk. by left.
      * right. exists clk'. by right.
Qed.

(** X6. Whatever the trace of connections and events, a packet is only ever
    handed to a socket that has connected earlier in the trace. *)
Theorem packets_only_to_connected_sockets tr d :
  d ∈ (run tr init).2 → ∃ clk, (clk, Connection (to d)) ∈ tr.
Proof.
  intros Hd.
  destruct (run_delivery_connected tr init d) as [Hinit|Hconn]; [|done| |done].
  - intros room x Hx. by rewrite members_init in Hx.
  - by apply not_elem_of_empty in Hinit.
Qed.

Lemma packets_only_to_connected_sockets_witness :
  mkDelivery "b1" "chat:receive" (chat_receive (mkClock 6 6) hello)
    ∈ (run busy_trace init).2
  ∧ ∃ clk, (clk, Connection "b1") ∈ busy_trace.
Proof.
  assert (Hd : mkDelivery "b1" "chat:receive" (chat_receive (mkClock 6 6) hello)
               ∈ (run busy_trace init).2).
  { vm_compute. repeat first [apply list_elem_of_here | apply list_elem_of_further]. }
  split; [exact Hd|].
  exact (packets_only_to_connected_sockets busy_trace _ Hd).
Defined.



(** ** The socket-to-user map *)

Lemma step_users_connected clk i st :
  users_connected st →
  (∀ sid userId, i = Recv sid (authenticate userId) → truthy userId = true) →
  users_connected (step clk i st).1.
Proof.
  intros Hinv Hi. destruct i as [x|x e].
  - intros sid uid Hs. destruct (Hinv _ _ Hs) as [Hin Ht].
    split; [|done]. simpl. set_solver.
  - unfold step. case_decide as Hx; [|done].
    destruct e; cbn [fst handle]; try done.
    + intros sid uid. cbn [on_authenticate connectedUsers sockets].
      rewrite lookup_insert. case_decide as Heq.
      * intros [= <-]. subst. split; [done|]. by eapply Hi.
      * apply Hinv.
    + intros sid uid. cbn [connectedUsers sockets]. unfold on_disconnect.
      destruct (connectedUsers st !! x) as [u|] eqn:Hu.
      * destruct (Hinv _ _ Hu) as [_ ->].
        rewrite lookup_delete. case_decide as Heq; [done|].
        intros Hs. destruct (Hinv _ _ Hs). split; [|done]. set_solver.
      * intros Hs. destruct (Hinv _ _ Hs). split; [|done].
        apply elem_of_difference. split; [done|].
        rewrite elem_of_singleton. intros ->. congruence.
Qed.

Lemma run_users_connected tr st :
  users_connected st → authenticates_truthy tr →
  users_connected (run tr st).1.
Proof.
  revert st. induction tr as [|[clk i] tr IH]; intros st Hinv Htr; [done|].
  rewrite run_cons. cbn [fst]. apply IH.
  - apply step_users_connected; [done|].
    intros sid uid ->. eapply Htr. by left.
  - intros clk' sid uid Hin. eapply Htr. by right.
Qed.

(** X8. Along any trace in which sockets authenticate with non-empty user
    ids only, every entry of [connectedUsers] belongs to a socket that is
    still connected, so the figure of [/health] never exceeds the number of
    connected sockets. *)
Theorem health_bounded_by_connections tr :
  authenticates_truthy tr →
  users_connected (run tr init).1
  ∧ (health_sockets (run tr init).1 ≤ Z.of_nat (size (sockets (run tr init).1)))%Z.
Proof.
  intros Htr.
  assert (Hinv : users_connected (run tr init).1).
  { apply run_users_connected; [|done]. intros sid uid Hs.
    unfold init in Hs. cbn [connectedUsers] in Hs. by rewrite lookup_empty in Hs. }
  split; [done|]. unfold health_sockets.
  rewrite <- (size_dom (D := gset string)). apply inj_le, subseteq_size.
  intros sid Hdom. apply elem_of_dom in Hdom as [uid Hs].
  by destruct (Hinv _ _ Hs).
Qed.

Lemma health_bounded_by_connections_witness :
  authenticates_truthy busy_trace
  ∧ (health_sockets (run busy_trace init).1
     ≤ Z.of_nat (size (sockets (run busy_trace init).1)))%Z
  ∧ health_sockets (run busy_trace init).1 = 2%Z
  ∧ size (sockets (run busy_trace init).1) = 2.
Proof.
  assert (Htr : authenticates_truthy busy_trace).
  { intros clk sid uid Hin.
    unfold busy_trace, authenticateSocket, sendChatMessage, markChatAsRead in Hin.
    repeat (apply elem_of_cons in Hin as [Heq|Hin]; [by simplify_eq|]).
    by apply elem_of_nil in Hin. }
  split; [exact Htr|]. split; [|split; by vm_compute].
  exact (proj2 (health_bounded_by_connections busy_trace Htr)).
Defined.

(** X9. The [disconnect] handler tests the stored user id for truthiness:
    a socket that authenticated with the empty string keeps its entry in
    [connectedUsers] when it disconnects, so [/health] goes on counting a
    socket that is gone. *)
Theorem empty_id_entry_survives_disconnect clk1 clk2 st sid :
  sid ∈ sockets st →
  let st1 := (step clk1 (Recv sid (authenticateSocket "")) st).1 in
  let st2 := (step clk2 (Recv sid disconnect) st1).1 in
  connectedUsers st2 !! sid = Some ""
  ∧ (sid ∉ sockets st2)
  ∧ health_sockets st2 = health_sockets st1.
Proof.
  intros Hin st1 st2. subst st1 st2. unfold authenticateSocket.
  rewrite step_authenticate by done.
  unfold step. rewrite decide_True by done.
  cbn [fst handle connectedUsers sockets on_authenticate].
  unfold health_sockets, on_disconnect. cbn [connectedUsers].
  rewrite lookup_insert_eq. cbn [truthy String.eqb negb].
  rewrite lookup_insert_eq. split_and!; [done|set_solver|done].
Qed.

Lemma empty_id_entry_survives_disconnect_witness :
  health_sockets
    (step (mkClock 2 2) (Recv "s1" disconnect)
       (step (mkClock 1 1) (Recv "s1" (authenticateSocket "")) nobody_viewing).1).1
  = 1%Z
  ∧ sockets
      (step (mkClock 2 2) (Recv "s1" disconnect)
         (step (mkClock 1 1) (Recv "s1" (authenticateSocket "")) nobody_viewing).1).1
    = ∅.
Proof.
  assert (Hin : "s1" ∈ sockets nobody_viewing) by by_eval.
  pose proof (empty_id_entry_survives_disconnect (mkClock 1 1) (mkClock 2 2)
                nobody_viewing "s1" Hin) as (_ & _ & Hcount).
  split; [|by vm_compute].
  rewrite Hcount. by vm_compute.
Defined.

(** * Further properties of the response cache *)

(** X10. Read after write: once a GET has been answered through [res.json]
    and stored at clock reading [T], a request that is not a GET (handled by
    whatever router) does not touch the entry, and a later GET for the same
    [originalUrl] less than 30 s after [T] is answered with the stored data,
    whatever the router would answer by then. *)
Theorem read_after_write_is_stale
    routes errorHandler routes' errorHandler'
    t0 T t1 t1' t2 t2' (get write : Request) cache status d :
  method get = "GET" →
  method write ≠ "GET" →
  recomputed (cacheMiddleware routes errorHandler t0 T get cache).2 = true →
  next routes errorHandler get = reply_json status d →
  (t2 - T < 30 * 1000)%Z →
  let stored := (cacheMiddleware routes errorHandler t0 T get cache).1 in
  cacheMiddleware routes' errorHandler' t1 t1' write stored
  = (stored, from_handler (next routes' errorHandler' write))
  ∧ cacheMiddleware routes' errorHandler' t2 t2' get stored
    = (stored, from_cache d).
Proof.
  intros Hget Hwrite Hmiss Hjson Hfresh stored. split.
  - by apply cacheMiddleware_not_get.
  - apply (cacheMiddleware_fresh routes' errorHandler' t2 t2' get stored
             (mkCacheEntry d T)); [done| |done].
    subst stored. by eapply cacheMiddleware_miss_stores.
Qed.

(** X11. Being served does not prolong an entry, and only a JSON answer
    replaces it: a hit leaves the cache as it is, so a GET 30 s or more
    after the entry was stamped runs the chain however recent the last hit.
    If the chain then answers through [res.json], the entry becomes that
    answer with the new clock reading; if it answers by other means, the old
    entry stays. *)
Theorem hits_do_not_extend_lifetime
    routes errorHandler t1 t1' t2 t2' (get : Request) cache e :
  method get = "GET" →
  cache !! originalUrl get = Some e →
  (t1 - timestamp e < 30 * 1000)%Z →
  (30 * 1000 ≤ t2 - timestamp e)%Z →
  let after_hit := (cacheMiddleware routes errorHandler t1 t1' get cache).1 in
  let again := cacheMiddleware routes errorHandler t2 t2' get after_hit in
  after_hit = cache
  ∧ again.2 = from_handler (next routes errorHandler get)
  ∧ (∀ status d, next routes errorHandler get = reply_json status d →
       again.1 = <[originalUrl get := mkCacheEntry d t2']> cache)
  ∧ (∀ status raw, next routes errorHandler get = reply_other status raw →
       again.1 = cache).
Proof.
  intros Hget He Hfresh Hstale after_hit again.
  assert (Hsame : after_hit = cache).
  { subst after_hit. by rewrite (cacheMiddleware_fresh _ _ _ _ _ _ e). }
  subst again. rewrite Hsame.
  rewrite (cacheMiddleware_stale _ _ _ _ _ _ e) by done.
  split_and!; [done|done| |]; intros ? ? ->; done.
Qed.

Lemma read_after_write_is_stale_witness :
  cacheMiddleware no_routes answer_500 (1000 + 29999) (1000 + 30005) get_cases
    cases_cached
  = (cases_cached, from_cache (JArr [JStr "case 1"; JStr "case 2"])).
Proof.
  refine (proj2 (read_after_write_is_stale cases_only answer_500 no_routes answer_500
                   990 1000 2000 2005 (1000 + 29999) (1000 + 30005)
                   get_cases post_cases ∅ 200 (JArr [JStr "case 1"; JStr "case 2"])
                   _ _ _ _ _)); first [reflexivity | discriminate].
Defined.

Lemma hits_do_not_extend_lifetime_witness :
  (cacheMiddleware cases_only answer_500 (1000 + 30000) (1000 + 30007) get_cases
     (cacheMiddleware cases_only answer_500 (1000 + 29999) (1000 + 29999) get_cases
        cases_cached).1).1
  = <[ "/api/cases?page=1"
       := mkCacheEntry (JArr [JStr "case 1"; JStr "case 2"]) (1000 + 30007) ]>
      cases_cached.
Proof.
  apply (proj1 (proj2 (proj2 (hits_do_not_extend_lifetime cases_only answer_500
           (1000 + 29999) (1000 + 29999) (1000 + 30000) (1000 + 30007) get_cases
           cases_cached
           (mkCacheEntry (JArr [JStr "case 1"; JStr "case 2"]) 1000)
           eq_refl eq_refl eq_refl ltac:(simpl; lia)))) 200); reflexivity.
Defined.

(** * Properties of the client's error messages *)

Lemma or_else_nonempty s d : d ≠ "" → or_else s d ≠ "".
Proof.
  intros Hd. unfold or_else, truthy.
  destruct (String.eqb_spec s ""); simpl; congruence.
Qed.

Lemma or_else_truthy s d : s ≠ "" → or_else s d = s.
Proof.
  intros Hs. unfold or_else, truthy.
  by destruct (String.eqb_spec s "").
Qed.

Lemma getUserFriendlyMessage_nonempty toLowerCase error :
  getUserFriendlyMessage toLowerCase error ≠ "".
Proof.
  destruct error as [code status msg|name msg|v]; simpl; [| |done].
  - repeat match goal with
           | |- context [if ?b then _ else _] => destruct b
           end; try done; by apply or_else_nonempty.
  - repeat match goal with
           | |- context [if ?b then _ else _] => destruct b
           end; done.
Qed.

(** X12. The text for the user is never empty: not the message
    [getUserFriendlyMessage] picks for any thrown value, and not the one
    [handleApiError] returns, whatever custom message it is given.  A
    non-empty custom message is used as it is, and a missing or empty one
    falls back to [getUserFriendlyMessage].  While a toast system is
    mounted, [handleApiError] adds exactly one toast after those on
    screen, of type error, lasting 5000 ms, with the text it returns; while
    none is mounted it shows nothing and still returns the text. *)
Theorem user_message_never_empty toLowerCase now error context ts :
  getUserFriendlyMessage toLowerCase error ≠ ""
  ∧ (∀ custom,
       (handleApiError toLowerCase now error context custom ts).1 ≠ ""
       ∧ (globalAddToast ts = true →
          toasts (handleApiError toLowerCase now error context custom ts).2
          = toasts ts
            ++ [ mkToast
                   ("toast-" +:+ pretty now +:+ "-" +:+ pretty (toastIdRef ts))
                   (handleApiError toLowerCase now error context custom ts).1
                   "error" 5000 ])
       ∧ (globalAddToast ts = false →
          (handleApiError toLowerCase now error context custom ts).2 = ts))
  ∧ (∀ custom, custom ≠ "" →
       (handleApiError toLowerCase now error context (Some custom) ts).1 = custom)
  ∧ (handleApiError toLowerCase now error context (Some "") ts).1
    = getErrorMessage toLowerCase error context
  ∧ (handleApiError toLowerCase now error context None ts).1
    = getErrorMessage toLowerCase error context.
Proof.
  split_and!.
  - apply getUserFriendlyMessage_nonempty.
  - intros custom. split_and!.
    + unfold handleApiError. cbn [fst].
      destruct custom as [c|]; [|apply getUserFriendlyMessage_nonempty].
      unfold truthy. destruct (String.eqb_spec c ""); simpl;
        [apply getUserFriendlyMessage_nonempty|done].
    + intros Hon. unfold handleApiError, showError, showToast. cbn [fst snd].
      by rewrite Hon.
    + intros Hoff. unfold handleApiError, showError, showToast. cbn [snd].
      by rewrite Hoff.
  - intros custom Hc. unfold handleApiError, truthy. cbn [fst].
    by destruct (String.eqb_spec custom "").
  - done.
  - done.
Qed.

(** X13. What is shown never carries the error's own text in these cases:
    for an [Error] that is no [ApiError] the message is one of three fixed
    texts, for a thrown value that is no [Error] it is the generic text, and
    for an [ApiError] with status 0, 401, 403, 404, 409, 422, 408, 504 or
    500 to 503 it depends on the status alone. *)
Theorem fixed_messages_hide_error_text toLowerCase :
  (∀ name msg,
     getUserFriendlyMessage toLowerCase (Error name msg)
     ∈ [ ERROR_MESSAGES.NETWORK_ERROR; ERROR_MESSAGES.TIMEOUT;
         ERROR_MESSAGES.UNKNOWN_ERROR ])
  ∧ (∀ v, getUserFriendlyMessage toLowerCase (NotAnError v)
          = ERROR_MESSAGES.UNKNOWN_ERROR)
  ∧ (∀ status code msg code' msg',
       status ∈ fixed_statuses →
       getUserFriendlyMessage toLowerCase (ApiError code status msg)
       = getUserFriendlyMessage toLowerCase (ApiError code' status msg')).
Proof.
  split_and!.
  - intros name msg. simpl.
    repeat match goal with
           | |- context [if ?b then _ else _] => destruct b
           end; set_solver.
  - done.
  - intros status code msg code' msg' Hin. unfold fixed_statuses in Hin.
    repeat (apply elem_of_cons in Hin as [->|Hin]; [reflexivity|]).
    by apply elem_of_nil in Hin.
Qed.

Lemma fixed_messages_hide_error_text_witness :
  getUserFriendlyMessage ascii_toLowerCase
    (ApiError "E_SQL" 500 "ER_DUP_ENTRY: duplicate key 'cases.PRIMARY'")
  = getUserFriendlyMessage ascii_toLowerCase (ApiError "" 500 "").
Proof.
  apply (proj2 (proj2 (fixed_messages_hide_error_text ascii_toLowerCase))).
  by_eval.
Defined.

Ltac status_tests Hout :=
  repeat match goal with
         | |- context [(?s =? ?k)%Z] =>
             rewrite (proj2 (Z.eqb_neq s k))
               by (intros ->; apply Hout; unfold fixed_statuses; set_solver)
         end.

(** X14. The error's own message is shown when it is not empty and the
    status is 400, or the status is none of the fixed ones and the code is
    neither NETWORK_ERROR nor PARSE_ERROR. *)
Theorem api_message_is_shown toLowerCase code status msg :
  msg ≠ "" →
  status = 400%Z
  ∨ ((status ∉ fixed_statuses) ∧ code ≠ "NETWORK_ERROR" ∧ code ≠ "PARSE_ERROR") →
  getUserFriendlyMessage toLowerCase (ApiError code status msg) = msg.
Proof.
  intros Hmsg [->|(Hout & Hnet & Hparse)].
  - simpl. by apply or_else_truthy.
  - destruct (decide (status = 400%Z)) as [->|H400].
    { simpl. by apply or_else_truthy. }
    unfold getUserFriendlyMessage.
    rewrite (proj2 (Z.eqb_neq status 400)) by done.
    status_tests Hout. cbn [orb].
    rewrite (proj2 (String.eqb_neq _ _) Hnet), (proj2 (String.eqb_neq _ _) Hparse).
    by apply or_else_truthy.
Qed.

Lemma api_message_is_shown_witness :
  getUserFriendlyMessage ascii_toLowerCase
    (ApiError "RATE_LIMITED" 429 "Too many requests from this address")
  = "Too many requests from this address".
Proof.
  apply api_message_is_shown; [done|]. right. split_and!; [|done|done].
  by_eval.
Defined.

(** X15. [isNetworkError] and the message agree on errors that are no
    [ApiError]: such an error is a network error exactly when the user is
    told to check the connection.  For an [ApiError] whose status is 0, or
    neither 400 nor one of the fixed ones, the user is told to check the
    connection exactly when it is a network error or its own message is that
    very text (and its code is not PARSE_ERROR).  A fixed status other than
    0 wins over the code NETWORK_ERROR: such an error counts as a network
    error and still gets the message of its status. *)
Theorem network_classification_and_message toLowerCase :
  (∀ name msg,
     isNetworkError toLowerCase (Error name msg) = true
     ↔ getUserFriendlyMessage toLowerCase (Error name msg)
       = ERROR_MESSAGES.NETWORK_ERROR)
  ∧ (∀ code status msg,
       status = 0%Z ∨ (status ≠ 400%Z ∧ status ∉ fixed_statuses) →
       getUserFriendlyMessage toLowerCase (ApiError code status msg)
       = ERROR_MESSAGES.NETWORK_ERROR
       ↔ isNetworkError toLowerCase (ApiError code status msg) = true
         ∨ (code ≠ "PARSE_ERROR" ∧ msg = ERROR_MESSAGES.NETWORK_ERROR))
  ∧ (∀ status msg,
       status ∈ fixed_statuses → status ≠ 0%Z →
       isNetworkError toLowerCase (ApiError "NETWORK_ERROR" status msg) = true
       ∧ getUserFriendlyMessage toLowerCase (ApiError "NETWORK_ERROR" status msg)
         ≠ ERROR_MESSAGES.NETWORK_ERROR).
Proof.
  split_and!.
  - intros name msg. simpl.
    destruct (includes (toLowerCase msg) "network" || includes (toLowerCase msg) "fetch");
      [done|].
    by destruct (includes (toLowerCase msg) "timeout").
  - intros code status msg [->|[H400 Hout]].
    { split; [by left|done]. }
    assert (H0 : (status =? 0)%Z = false).
    { apply Z.eqb_neq. intros ->. apply Hout. unfold fixed_statuses. set_solver. }
    unfold getUserFriendlyMessage, isNetworkError.
    rewrite (proj2 (Z.eqb_neq status 400)) by done. rewrite !H0.
    status_tests Hout. cbn [orb].
    destruct (String.eqb_spec code "NETWORK_ERROR") as [Hnet|Hnet].
    { split; [by left|done]. }
    destruct (String.eqb_spec code "PARSE_ERROR") as [Hparse|Hparse].
    { split; [done|]. intros [?|[? _]]; done. }
    split.
    + intros Hmsg. right. split; [done|]. revert Hmsg. unfold or_else, truthy.
      destruct (String.eqb_spec msg ""); simpl; done.
    + intros [?|[_ ->]]; done.
  - intros status msg Hin H0. unfold fixed_statuses in Hin.
    repeat (apply elem_of_cons in Hin as [->|Hin]; [by split|]).
    by apply elem_of_nil in Hin.
Qed.

Lemma network_classification_and_message_witness :
  isNetworkError ascii_toLowerCase (Error "TypeError" "Failed to FETCH") = true
  ∧ getUserFriendlyMessage ascii_toLowerCase (Error "TypeError" "Failed to FETCH")
    = ERROR_MESSAGES.NETWORK_ERROR
  ∧ isNetworkError ascii_toLowerCase (ApiError "NETWORK_ERROR" 401 "") = true
  ∧ getUserFriendlyMessage ascii_toLowerCase (ApiError "NETWORK_ERROR" 401 "")
    = ERROR_MESSAGES.UNAUTHORIZED
  ∧ isNetworkError ascii_toLowerCase
      (ApiError "RATE_LIMITED" 429 ERROR_MESSAGES.NETWORK_ERROR) = false
  ∧ getUserFriendlyMessage ascii_toLowerCase
      (ApiError "RATE_LIMITED" 429 ERROR_MESSAGES.NETWORK_ERROR)
    = ERROR_MESSAGES.NETWORK_ERROR.
Proof.
  destruct (network_classification_and_message ascii_toLowerCase)
    as (Hplain & Hapi & Hfixed).
  assert (Hnet : isNetworkError ascii_toLowerCase (Error "TypeError" "Failed to FETCH")
                 = true) by reflexivity.
  split_and!.
  - exact Hnet.
  - by apply Hplain.
  - apply (Hfixed 401%Z ""); [by_eval|done].
  - reflexivity.
  - reflexivity.
  - apply (Hapi "RATE_LIMITED" 429%Z ERROR_MESSAGES.NETWORK_ERROR).
    + right. split; [done|by_eval].
    + right. by split.
Defined.

(** * Properties of the query client *)

Lemma pow2_le_mono (a b : nat) : (a ≤ b)%nat → (2 ^ Z.of_nat a ≤ 2 ^ Z.of_nat b)%Z.
Proof. intros Hab. apply Z.pow_le_mono_r; lia. Qed.

(** X16. The delay before retry number n doubles from one second, 1000 *
    2^n ms, up to the fourth retry, and is 30 s from the fifth on: it never
    decreases from one retry to the next and always lies between 1 s and
    30 s. *)
Theorem retryDelay_doubles_up_to_cap (n : nat) :
  (1000 ≤ retryDelay n ≤ 30000)%Z
  ∧ (retryDelay n ≤ retryDelay (S n))%Z
  ∧ ((n ≤ 4)%nat → retryDelay n = (1000 * 2 ^ Z.of_nat n)%Z)
  ∧ ((5 ≤ n)%nat → retryDelay n = 30000%Z).
Proof.
  unfold retryDelay.
  assert (Hpos : (1 ≤ 2 ^ Z.of_nat n)%Z).
  { change 1%Z with (2 ^ Z.of_nat 0)%Z. apply pow2_le_mono. lia. }
  assert (Hstep : (2 ^ Z.of_nat n ≤ 2 ^ Z.of_nat (S n))%Z)
    by (apply pow2_le_mono; lia).
  split_and!; [lia|lia|lia| |].
  - intros Hn. assert (H4 : (2 ^ Z.of_nat n ≤ 2 ^ Z.of_nat 4)%Z)
      by by apply pow2_le_mono.
    change (2 ^ Z.of_nat 4)%Z with 16%Z in H4. lia.
  - intros Hn. assert (H5 : (2 ^ Z.of_nat 5 ≤ 2 ^ Z.of_nat n)%Z)
      by by apply pow2_le_mono.
    change (2 ^ Z.of_nat 5)%Z with 32%Z in H5. lia.
Qed.

Lemma retryDelay_doubles_up_to_cap_witness :
  retryDelay 3 = 8000%Z ∧ retryDelay 7 = 30000%Z.
Proof.
  split.
  - rewrite (proj1 (proj2 (proj2 (retryDelay_doubles_up_to_cap 3)))) by lia.
    reflexivity.
  - apply (proj2 (proj2 (proj2 (retryDelay_doubles_up_to_cap 7)))). lia.
Defined.

(** X17. The optimistic update of a case: an entry that is not in the
    cache is not created; in an entry that is there the updated fields take
    their new values and every other field keeps its own; applying the same
    update twice is the same as once, and two updates in a row amount to
    one update in which the later one wins. *)
Theorem updateCase_updater_laws (u u' : gmap string json) :
  updateCase_updater u None = None
  ∧ (∀ o k, ∃ m, updateCase_updater u (Some o) = Some m
                 ∧ m !! k = match u !! k with
                            | Some v => Some v
                            | None => o !! k
                            end)
  ∧ (∀ old, updateCase_updater u (updateCase_updater u old)
            = updateCase_updater u old)
  ∧ (∀ old, updateCase_updater u' (updateCase_updater u old)
            = updateCase_updater (u' ∪ u) old).
Proof.
  split_and!.
  - done.
  - intros o k. exists (u ∪ o). split; [done|].
    rewrite lookup_union. by destruct (u !! k), (o !! k).
  - intros [o|]; [|done]. simpl. f_equal.
    by rewrite (assoc_L (∪)), (idemp_L (∪)).
  - intros [o|]; [|done]. simpl. f_equal. by rewrite (assoc_L (∪)).
Qed.

Lemma id_differs_spec toISOString caseId (c : gmap string json) :
  id_differs toISOString caseId c = true ↔ id_string toISOString c ≠ Some caseId.
Proof.
  unfold id_differs. destruct (id_string toISOString c) as [s|]; [|done].
  rewrite negb_true_iff, String.eqb_neq. split; congruence.
Qed.

Lemma filter_id_differs_all toISOString caseId (cases : list (gmap string json)) :
  Forall (λ c, id_string toISOString c ≠ Some caseId) cases →
  List.filter (id_differs toISOString caseId) cases = cases.
Proof.
  induction 1 as [|c cases Hc _ IH]; [done|].
  simpl. by rewrite (proj2 (id_differs_spec _ _ _) Hc), IH.
Qed.

Lemma filter_id_differs_idemp toISOString caseId (cases : list (gmap string json)) :
  List.filter (id_differs toISOString caseId)
    (List.filter (id_differs toISOString caseId) cases)
  = List.filter (id_differs toISOString caseId) cases.
Proof.
  induction cases as [|c cases IH]; [done|].
  simpl. destruct (id_differs toISOString caseId c) eqn:Hc; simpl; [|done].
  by rewrite Hc, IH.
Qed.

(** X18. Adding and removing a case in the cached list.  Without a cached
    list, adding creates the one-element list and removing creates nothing.
    Removing the case just added gives back the list as it was, when no
    other case in it has that id; removing twice is the same as once.  What
    is left after a removal is exactly the cases whose [id] is not the
    string asked for: a case with that string as id goes, and a case whose
    id is another string, a number, or missing stays. *)
Theorem add_remove_case_laws toISOString caseId (newCase : gmap string json) :
  addCase_updater newCase None = Some [newCase]
  ∧ removeCase_updater toISOString caseId None = None
  ∧ (∀ cases,
       id_string toISOString newCase = Some caseId →
       Forall (λ c, id_string toISOString c ≠ Some caseId) cases →
       removeCase_updater toISOString caseId (addCase_updater newCase (Some cases))
       = Some cases)
  ∧ (∀ old, removeCase_updater toISOString caseId
              (removeCase_updater toISOString caseId old)
            = removeCase_updater toISOString caseId old)
  ∧ (∀ cases c kept,
       removeCase_updater toISOString caseId (Some cases) = Some kept →
       c ∈ kept ↔ c ∈ cases ∧ id_string toISOString c ≠ Some caseId).
Proof.
  split_and!.
  - done.
  - done.
  - intros cases Hid Hall. simpl. unfold id_differs at 1.
    rewrite Hid, String.eqb_refl. simpl. f_equal.
    by apply filter_id_differs_all.
  - intros [cases|]; [|done]. simpl. f_equal. apply filter_id_differs_idemp.
  - intros cases c kept [= <-].
    rewrite !list_elem_of_In, filter_In. by rewrite id_differs_spec.
Qed.

Lemma add_remove_case_laws_witness :
  removeCase_updater undated "KD-7"
    (addCase_updater {[ "id" := JStr "KD-7" ]}
       (Some [ {[ "id" := JStr "KD-1" ]}; {[ "id" := JNum 7 ]} ]))
  = Some [ {[ "id" := JStr "KD-1" ]}; {[ "id" := JNum 7 ]} ].
Proof.
  apply (proj1 (proj2 (proj2 (add_remove_case_laws undated "KD-7"
                                {[ "id" := JStr "KD-7" ]})))).
  - by vm_compute.
  - repeat constructor; by vm_compute.
Defined.

(** * Properties of the service worker *)

Lemma caches_match_app url (cs1 cs2 : CacheStorage) :
  caches_match url (cs1 ++ cs2)
  = match caches_match url cs1 with
    | Some r => Some r
    | None => caches_match url cs2
    end.
Proof.
  induction cs1 as [|[n c] cs1 IH]; [done|].
  simpl. by destruct (c !! url).
Qed.

Lemma has_cache_app cacheName (cs1 cs2 : CacheStorage) :
  has_cache cacheName (cs1 ++ cs2)
  = has_cache cacheName cs1 || has_cache cacheName cs2.
Proof. unfold has_cache. apply existsb_app. Qed.

(** A URL that no cache holds is found right after it is put into a cache
    that exists. *)
Lemma caches_match_put cacheName url r (cs : CacheStorage) :
  caches_match url cs = None →
  has_cache cacheName cs = true →
  caches_match url (cache_put cacheName url r cs) = Some r.
Proof.
  induction cs as [|[n c] cs IH]; [done|].
  unfold cache_put, has_cache. rewrite fmap_cons. cbn [existsb caches_match fst snd].
  destruct (c !! url) eqn:Hc; [done|]. intros Hnone Hhas.
  destruct (String.eqb n cacheName); cbn [fst snd caches_match].
  - by rewrite lookup_insert_eq.
  - rewrite Hc. by apply IH.
Qed.

Lemma caches_match_put_open cacheName url r (cs : CacheStorage) :
  caches_match url cs = None →
  caches_match url (cache_put cacheName url r (caches_open cacheName cs)) = Some r.
Proof.
  intros Hnone. unfold caches_open.
  destruct (has_cache cacheName cs) eqn:Hhas.
  - by apply caches_match_put.
  - apply caches_match_put.
    + rewrite caches_match_app, Hnone. simpl. by rewrite lookup_empty.
    + rewrite has_cache_app, Hhas. simpl. by rewrite String.eqb_refl.
Qed.

Lemma caches_match_put_ne cacheName url url' r (cs : CacheStorage) :
  url ≠ url' →
  caches_match url (cache_put cacheName url' r cs) = caches_match url cs.
Proof.
  intros Hne. induction cs as [|[n c] cs IH]; [done|].
  unfold cache_put. rewrite fmap_cons. cbn [fst snd].
  fold (cache_put cacheName url' r cs).
  destruct (String.eqb n cacheName); cbn [caches_match fst snd].
  - rewrite lookup_insert_ne by done. by rewrite IH.
  - by rewrite IH.
Qed.

Lemma caches_match_open cacheName url (cs : CacheStorage) :
  caches_match url (caches_open cacheName cs) = caches_match url cs.
Proof.
  unfold caches_open. destruct (has_cache cacheName cs); [done|].
  rewrite caches_match_app. destruct (caches_match url cs); [done|].
  simpl. by rewrite lookup_empty.
Qed.

(** A fetch event stores a response only under the URL of its request, and
    only when no cache holds that URL. *)
Lemma sw_fetch_cases origin network req (cs : CacheStorage) :
  (sw_fetch origin network req cs).1 = cs
  ∨ (∃ r, handled_by_worker req
          ∧ caches_match (sw_url req) cs = None
          ∧ (sw_fetch origin network req cs).1
            = cache_put CACHE_NAME (sw_url req) r (caches_open CACHE_NAME cs)).
Proof.
  unfold sw_fetch.
  destruct (String.eqb_spec (sw_method req) "GET") as [Hm|Hm]; cbn [negb]; [|by left].
  destruct (includes (sw_url req) "/api/") eqn:Hapi; cbn [orb]; [by left|].
  destruct (includes (sw_url req) "/socket.io/") eqn:Hio; [by left|].
  destruct (caches_match (sw_url req) cs) eqn:Hc; [by left|].
  destruct (network req) as [r|]; [|by left].
  case_match; [by left|]. right. by exists r.
Qed.

Lemma sw_fetch_keeps_match origin network req url r (cs : CacheStorage) :
  caches_match url cs = Some r →
  caches_match url (sw_fetch origin network req cs).1 = Some r.
Proof.
  intros Hr.
  destruct (sw_fetch_cases origin network req cs) as [->|(r' & _ & Hnone & ->)];
    [done|].
  rewrite caches_match_put_ne, caches_match_open; [done|].
  intros ->. congruence.
Qed.

Lemma sw_run_keeps_match origin events url r (cs : CacheStorage) :
  caches_match url cs = Some r →
  caches_match url (sw_run origin events cs) = Some r.
Proof.
  revert cs. induction events as [|[network req] events IH]; intros cs Hr; [done|].
  cbn [sw_run]. by apply IH, sw_fetch_keeps_match.
Qed.

Lemma elem_of_cache_put n c cacheName url r (cs : CacheStorage) :
  (n, c) ∈ cache_put cacheName url r cs →
  (n, c) ∈ cs ∨ ∃ c0, (n, c0) ∈ cs ∧ c = <[url := r]> c0.
Proof.
  unfold cache_put. rewrite list_elem_of_fmap. intros ([n0 c0] & Heq & Hin).
  cbn [fst snd] in Heq. destruct (String.eqb n0 cacheName).
  - injection Heq as -> ->. right. by exists c0.
  - injection Heq as -> ->. by left.
Qed.

Lemma api_free_open cacheName (cs : CacheStorage) :
  api_free cs → api_free (caches_open cacheName cs).
Proof.
  intros Hfree. unfold caches_open. destruct (has_cache cacheName cs); [done|].
  intros n c url Hin Hsome. apply elem_of_app in Hin as [Hin|Hin]; [by eapply Hfree|].
  apply list_elem_of_singleton in Hin. injection Hin as -> ->.
  rewrite lookup_empty in Hsome. by destruct Hsome.
Qed.

Lemma sw_fetch_api_free origin network req (cs : CacheStorage) :
  api_free cs → api_free (sw_fetch origin network req cs).1.
Proof.
  intros Hfree.
  destruct (sw_fetch_cases origin network req cs) as [->|(r & Hreq & _ & ->)];
    [done|].
  intros n c url Hin Hsome.
  apply elem_of_cache_put in Hin as [Hin|(c0 & Hin & ->)].
  - by eapply (api_free_open CACHE_NAME cs Hfree).
  - rewrite lookup_insert in Hsome. case_decide as Hu.
    + subst url. by destruct Hreq as (_ & ? & ?).
    + by eapply (api_free_open CACHE_NAME cs Hfree).
Qed.

Lemma sw_run_api_free origin events (cs : CacheStorage) :
  api_free cs → api_free (sw_run origin events cs).
Proof.
  revert cs. induction events as [|[network req] events IH]; intros cs Hfree; [done|].
  cbn [sw_run]. by apply IH, sw_fetch_api_free.
Qed.

Section ServiceWorkerProperties.

Variable origin : string.

Lemma sw_fetch_handled network req cs :
  handled_by_worker req →
  sw_fetch origin network req cs
  = match caches_match (sw_url req) cs with
    | Some response => (cs, RespondWith (Some response))
    | None =>
        match network req with
        | Some networkResponse =>
            if negb (sw_status networkResponse =? 200)%Z
               || negb (String.eqb (sw_type networkResponse) "basic")
            then (cs, RespondWith (Some networkResponse))
            else (cache_put CACHE_NAME (sw_url req) networkResponse
                    (caches_open CACHE_NAME cs),
                  RespondWith (Some networkResponse))
        | None => (cs, RespondWith (caches_match (origin +:+ "/index.html") cs))
        end
    end.
Proof.
  intros (Hm & Hapi & Hio). unfold sw_fetch.
  by rewrite Hm, String.eqb_refl, Hapi, Hio.
Qed.

(** X19. The worker leaves a request to the browser, and leaves the caches
    alone, exactly when it is not a GET or its URL contains [/api/] or
    [/socket.io/].  So fetch events never bring such a URL into a cache:
    if no cache holds one, none does after any sequence of fetch events. *)
Theorem worker_bypasses_api_requests network req cs :
  ((sw_fetch origin network req cs).2 = PassThrough
   ↔ sw_method req ≠ "GET"
     ∨ includes (sw_url req) "/api/" = true
     ∨ includes (sw_url req) "/socket.io/" = true)
  ∧ ((sw_fetch origin network req cs).2 = PassThrough →
     (sw_fetch origin network req cs).1 = cs)
  ∧ (∀ events, api_free cs → api_free (sw_run origin events cs)).
Proof.
  split; [|split]; [| |intros events; apply sw_run_api_free].
  all: unfold sw_fetch.
  all: destruct (String.eqb_spec (sw_method req) "GET") as [Hm|Hm]; cbn [negb].
  all: try (first [done | split; [by left|done]]).
  all: destruct (includes (sw_url req) "/api/") eqn:Hapi; cbn [orb].
  all: try (first [done | split; [by (right; left)|done]]).
  all: destruct (includes (sw_url req) "/socket.io/") eqn:Hio.
  all: try (first [done | split; [by (right; right)|done]]).
  - split; [|intros [?|[?|?]]; done]. intros Hp. exfalso. revert Hp.
    repeat case_match; done.
  - intros Hp. exfalso. revert Hp. repeat case_match; done.
Qed.

(** X20. Cache first, for good: a response some cache holds for a URL is
    never replaced by fetch events.  After any sequence of fetch events a
    handled request for that URL is still answered with the same stored
    response, whatever the network would return and even when it is down,
    and the caches stay as they are. *)
Theorem cached_response_is_served_first events network req cs r :
  handled_by_worker req →
  caches_match (sw_url req) cs = Some r →
  sw_fetch origin network req (sw_run origin events cs)
  = (sw_run origin events cs, RespondWith (Some r)).
Proof.
  intros Hreq Hr. rewrite sw_fetch_handled by done.
  by rewrite (sw_run_keeps_match origin events (sw_url req) r cs Hr).
Qed.

(** X21. A handled request for a URL no cache holds goes to the network.
    A response with status 200 and type basic is returned and stored, and
    from then on the same request is answered with it whatever the network
    does.  Any other response is returned and not stored.  When the network
    fails the worker answers with the cached [/index.html] of its origin,
    or with nothing if that is not cached, and stores nothing. *)
Theorem fetched_response_is_stored_and_replayed network network' req cs :
  handled_by_worker req →
  caches_match (sw_url req) cs = None →
  (∀ r, network req = Some r →
     (sw_fetch origin network req cs).2 = RespondWith (Some r)
     ∧ (sw_status r = 200%Z → sw_type r = "basic" →
        sw_fetch origin network' req (sw_fetch origin network req cs).1
        = ((sw_fetch origin network req cs).1, RespondWith (Some r)))
     ∧ (sw_status r ≠ 200%Z ∨ sw_type r ≠ "basic" →
        (sw_fetch origin network req cs).1 = cs))
  ∧ (network req = None →
     sw_fetch origin network req cs
     = (cs, RespondWith (caches_match (origin +:+ "/index.html") cs))).
Proof.
  intros Hreq Hnone. rewrite (sw_fetch_handled network) by done.
  rewrite Hnone. split.
  - intros r Hnet. rewrite Hnet. split_and!.
    + by case_match.
    + intros Hs Ht. rewrite Hs, Ht, Z.eqb_refl, String.eqb_refl. cbn [negb orb fst].
      rewrite sw_fetch_handled by done.
      by rewrite caches_match_put_open.
    + intros [Hs|Ht].
      * by rewrite (proj2 (Z.eqb_neq _ _) Hs).
      * rewrite (proj2 (String.eqb_neq _ _) Ht). cbn [negb]. by rewrite orb_true_r.
  - by intros ->.
Qed.

End ServiceWorkerProperties.

Lemma caches_match_activate_None url (cs : CacheStorage) :
  (∀ c, (CACHE_NAME, c) ∈ cs → c !! url = None) →
  caches_match url (sw_activate cs) = None.
Proof.
  induction cs as [|[n c] cs IH]; [done|]. intros Hcur.
  unfold sw_activate. cbn [List.filter fst].
  fold (sw_activate cs).
  destruct (String.eqb_spec n CACHE_NAME) as [->|Hn].
  - cbn [caches_match]. rewrite (Hcur c) by left.
    apply IH. intros c' Hc'. apply Hcur. by right.
  - apply IH. intros c' Hc'. apply Hcur. by right.
Qed.

(** X22. Activation keeps the current cache and nothing else: the caches
    left are those named [CACHE_NAME], with their contents; a URL stored
    only in caches of other names is no longer found, so the next handled
    request for it goes to the network. *)
Theorem activate_purges_old_caches origin network (cs : CacheStorage) :
  (∀ n c, (n, c) ∈ sw_activate cs ↔ (n, c) ∈ cs ∧ n = CACHE_NAME)
  ∧ (∀ req r,
       handled_by_worker req →
       (∀ c, (CACHE_NAME, c) ∈ cs → c !! sw_url req = None) →
       network req = Some r →
       (sw_fetch origin network req (sw_activate cs)).2 = RespondWith (Some r)).
Proof.
  split.
  - intros n c. unfold sw_activate.
    rewrite !list_elem_of_In, filter_In. cbn [fst].
    by rewrite String.eqb_eq.
  - intros req r Hreq Hcur Hnet.
    rewrite sw_fetch_handled by done.
    rewrite caches_match_activate_None by done. rewrite Hnet. by case_match.
Qed.

(** ** Installing *)

Lemma has_cache_put cacheName cacheName' url r (cs : CacheStorage) :
  has_cache cacheName (cache_put cacheName' url r cs) = has_cache cacheName cs.
Proof.
  unfold has_cache, cache_put. induction cs as [|[n c] cs IH]; [done|].
  rewrite fmap_cons. cbn [existsb fst snd]. rewrite IH. f_equal.
  by destruct (String.eqb n cacheName').
Qed.

Lemma has_cache_open cacheName (cs : CacheStorage) :
  has_cache cacheName (caches_open cacheName cs) = true.
Proof.
  unfold caches_open. destruct (has_cache cacheName cs) eqn:Hhas; [done|].
  rewrite has_cache_app, Hhas. simpl. by rewrite String.eqb_refl.
Qed.

(** Putting something into a cache hides nothing that was found before. *)
Lemma caches_match_put_keeps cacheName url url' r (cs : CacheStorage) :
  is_Some (caches_match url cs) →
  is_Some (caches_match url (cache_put cacheName url' r cs)).
Proof.
  induction cs as [|[n c] cs IH]; [done|].
  unfold cache_put. rewrite fmap_cons. cbn [caches_match fst snd].
  fold (cache_put cacheName url' r cs).
  destruct (String.eqb n cacheName); cbn [caches_match fst snd].
  - rewrite lookup_insert. case_decide; [done|].
    destruct (c !! url); [done|apply IH].
  - destruct (c !! url); [done|apply IH].
Qed.

Lemma caches_match_put_found cacheName url r (cs : CacheStorage) :
  has_cache cacheName cs = true →
  is_Some (caches_match url (cache_put cacheName url r cs)).
Proof.
  induction cs as [|[n c] cs IH]; [done|].
  unfold has_cache, cache_put. rewrite fmap_cons. cbn [existsb caches_match fst snd].
  destruct (String.eqb n cacheName); cbn [caches_match fst snd orb].
  - by rewrite lookup_insert_eq.
  - intros Hhas. destruct (c !! url); [done|by apply IH].
Qed.

Lemma fold_put_found cacheName url (rs : list (string * SwResponse)) (cs : CacheStorage) :
  has_cache cacheName cs = true →
  is_Some (caches_match url cs) ∨ (∃ r, (url, r) ∈ rs) →
  is_Some (caches_match url
             (fold_left (λ acc ur, cache_put cacheName ur.1 ur.2 acc) rs cs)).
Proof.
  revert cs. induction rs as [|[u r] rs IH]; intros cs Hhas Hor.
  - destruct Hor as [Hfound|[r Hr]]; [done|by apply elem_of_nil in Hr].
  - cbn [fold_left fst snd]. apply IH; [by rewrite has_cache_put|].
    destruct Hor as [Hfound|[r' Hr]].
    + left. by apply caches_match_put_keeps.
    + apply elem_of_cons in Hr as [[= <- <-]|Hr].
      * left. by apply caches_match_put_found.
      * right. by exists r'.
Qed.

Section InstallProperties.

Variable origin : string.
Variable network : SwRequest → option SwResponse.

Lemma fetch_all_None urls url :
  url ∈ urls → asset_fails origin network url → fetch_all origin network urls = None.
Proof.
  intros Hin Hfail. induction urls as [|u urls IH]; [by apply elem_of_nil in Hin|].
  cbn [fetch_all]. apply elem_of_cons in Hin as [<-|Hin].
  - destruct Hfail as [->|(r & -> & ->)]; done.
  - rewrite (IH Hin). by repeat case_match.
Qed.

Lemma fetch_all_Some urls :
  (∀ url, url ∈ urls → asset_loads origin network url) →
  ∃ rs, fetch_all origin network urls = Some rs
        ∧ ∀ url, url ∈ urls → ∃ r, (origin +:+ url, r) ∈ rs.
Proof.
  induction urls as [|u urls IH]; intros Hall.
  - exists []. split; [done|]. intros url Hin. by apply elem_of_nil in Hin.
  - destruct (Hall u) as (r & Hr & Hok); [by left|].
    destruct IH as (rs & Hrs & Hmem); [intros url Hin; apply Hall; by right|].
    exists ((origin +:+ u, r) :: rs). cbn [fetch_all]. rewrite Hr, Hok, Hrs.
    split; [done|]. intros url Hin. apply elem_of_cons in Hin as [->|Hin].
    + exists r. by left.
    + destruct (Hmem url Hin) as [r' Hr']. exists r'. by right.
Qed.

(** X23. Installing is all or nothing.  If one of the static assets cannot
    be fetched or comes back with a status that is not ok, nothing is
    stored: the caches are as they were, but for the current cache being
    there.  If all of them load, each is found in the caches afterwards;
    and then a handled request made while the network is down always gets a
    response: its own cached one or the cached [/index.html]. *)
Theorem install_is_all_or_nothing (cs : CacheStorage) :
  (∀ url, url ∈ STATIC_ASSETS → asset_fails origin network url →
     sw_install origin network cs = caches_open CACHE_NAME cs)
  ∧ ((∀ url, url ∈ STATIC_ASSETS → asset_loads origin network url) →
     (∀ url, url ∈ STATIC_ASSETS →
        is_Some (caches_match (origin +:+ url) (sw_install origin network cs)))
     ∧ (∀ network' req,
          handled_by_worker req → network' req = None →
          ∃ r, sw_fetch origin network' req (sw_install origin network cs)
               = (sw_install origin network cs, RespondWith (Some r)))).
Proof.
  split.
  - intros url Hin Hfail. unfold sw_install.
    by rewrite (fetch_all_None _ _ Hin Hfail).
  - intros Hall.
    destruct (fetch_all_Some STATIC_ASSETS Hall) as (rs & Hrs & Hmem).
    assert (Hfound : ∀ url, url ∈ STATIC_ASSETS →
              is_Some (caches_match (origin +:+ url) (sw_install origin network cs))).
    { intros url Hin. unfold sw_install. rewrite Hrs.
      apply fold_put_found; [apply has_cache_open|]. right. by apply Hmem. }
    split; [done|]. intros network' req Hreq Hdown.
    rewrite sw_fetch_handled by done.
    destruct (caches_match (sw_url req) (sw_install origin network cs)) as [r|].
    + by exists r.
    + rewrite Hdown.
      destruct (Hfound "/index.html") as [r Hr]; [unfold STATIC_ASSETS; set_solver|].
      exists r. by rewrite Hr.
Qed.

End InstallProperties.

Lemma install_is_all_or_nothing_witness :
  sw_install "https://court.example" offline old_caches
  = old_caches ++ [(CACHE_NAME, ∅)]
  ∧ ∃ r, sw_fetch "https://court.example" offline get_logo
           (sw_install "https://court.example" online old_caches)
         = (sw_install "https://court.example" online old_caches,
            RespondWith (Some r)).
Proof.
  destruct (install_is_all_or_nothing "https://court.example" offline old_caches)
    as [Hnone _].
  destruct (install_is_all_or_nothing "https://court.example" online old_caches)
    as [_ Hall].
  split.
  - rewrite (Hnone "/"); [reflexivity|unfold STATIC_ASSETS; set_solver|by left].
  - apply Hall; [|done|done].
    intros url _. eexists. split; reflexivity.
Defined.

Lemma worker_bypasses_api_requests_witness :
  sw_fetch "https://court.example" online get_api_cases old_caches
  = (old_caches, PassThrough).
Proof.
  destruct (worker_bypasses_api_requests "https://court.example" online
              get_api_cases old_caches) as ([_ Hpass] & Hsame & _).
  assert (Hp : (sw_fetch "https://court.example" online get_api_cases old_caches).2
               = PassThrough).
  { apply Hpass. right. left. reflexivity. }
  rewrite (surjective_pairing (sw_fetch _ _ _ _)). by rewrite Hp, (Hsame Hp).
Defined.

Lemma cached_response_is_served_first_witness :
  sw_fetch "https://court.example" offline
    (mkSwRequest "GET" "https://court.example/old.js")
    (sw_run "https://court.example" [(online, get_logo); (online, get_api_cases)]
       old_caches)
  = (sw_run "https://court.example" [(online, get_logo); (online, get_api_cases)]
       old_caches,
     RespondWith (Some (mkSwResponse 200 "basic" "old"))).
Proof.
  apply cached_response_is_served_first; [by split_and!|reflexivity].
Defined.

Lemma fetched_response_is_stored_and_replayed_witness :
  sw_fetch "https://court.example" offline get_logo
    (sw_fetch "https://court.example" online get_logo old_caches).1
  = ((sw_fetch "https://court.example" online get_logo old_caches).1,
     RespondWith
       (Some (mkSwResponse 200 "basic" "content of https://court.example/logo.png")))
  ∧ sw_fetch "https://court.example" offline get_logo old_caches
    = (old_caches, RespondWith None).
Proof.
  destruct (fetched_response_is_stored_and_replayed
              "https://court.example" online offline get_logo old_caches
              ltac:(by split_and!) eq_refl) as [Hup _].
  destruct (fetched_response_is_stored_and_replayed
              "https://court.example" offline offline get_logo old_caches
              ltac:(by split_and!) eq_refl) as [_ Hdown].
  split.
  - apply (Hup _ eq_refl); reflexivity.
  - by apply Hdown.
Defined.

Lemma activate_purges_old_caches_witness :
  (sw_fetch "https://court.example" online
     (mkSwRequest "GET" "https://court.example/old.js") (sw_activate old_caches)).2
  = RespondWith
      (Some (mkSwResponse 200 "basic" "content of https://court.example/old.js")).
Proof.
  apply (proj2 (activate_purges_old_caches "https://court.example" online old_caches));
    [by split_and!| |reflexivity].
  intros c Hc. unfold old_caches in Hc.
  apply list_elem_of_singleton in Hc. discriminate.
Defined.

Lemma user_message_never_empty_witness :
  (handleApiError ascii_toLowerCase 1700 (ApiError "X" 400 "") "login" (Some "")
     toasts_mounted).1
  = ERROR_MESSAGES.BAD_REQUEST
  ∧ (handleApiError ascii_toLowerCase 1700 (ApiError "X" 400 "") "login"
       (Some "Wrong password") toasts_mounted).1
    = "Wrong password"
  ∧ (handleApiError ascii_toLowerCase 1700 (ApiError "X" 400 "") "login"
       (Some "Wrong password") toasts_unmounted).2
    = toasts_unmounted
  ∧ toasts (handleApiError ascii_toLowerCase 1700 (ApiError "X" 400 "") "login"
              (Some "Wrong password") toasts_mounted).2
    = [ mkToast "toast-1600-0" "Saved" "success" 5000;
        mkToast "toast-1700-1" "Wrong password" "error" 5000 ].
Proof.
  destruct (user_message_never_empty ascii_toLowerCase 1700 (ApiError "X" 400 "")
              "login" toasts_mounted) as (_ & _ & Hcustom & Hempty & _).
  destruct (user_message_never_empty ascii_toLowerCase 1700 (ApiError "X" 400 "")
              "login" toasts_unmounted) as (_ & Hoff & _).
  split_and!.
  - rewrite Hempty. reflexivity.
  - by apply Hcustom.
  - by apply Hoff.
  - by vm_compute.
Defined.

(** X24. The four predicates sort errors by status: an error whose code is
    none of NETWORK_ERROR, UNAUTHORIZED and FORBIDDEN falls into at most one
    of network, authentication, permission and validation error.  The codes
    are tested beside the status, so an [ApiError] with status 401 and code
    FORBIDDEN is both an authentication and a permission error. *)
Theorem error_classes_are_exclusive toLowerCase :
  (∀ error, ordinary_code error → (classes toLowerCase error ≤ 1)%nat)
  ∧ (∀ msg, isAuthError (ApiError "FORBIDDEN" 401 msg) = true
            ∧ isPermissionError (ApiError "FORBIDDEN" 401 msg) = true).
Proof.
  split; [|done].
  intros [code status msg|name msg|v] Hcode; unfold classes; simpl.
  - destruct Hcode as (Hnet & Hauth & Hperm).
    rewrite (proj2 (String.eqb_neq _ _) Hnet), (proj2 (String.eqb_neq _ _) Hauth),
      (proj2 (String.eqb_neq _ _) Hperm), !orb_false_r.
    destruct (Z.eqb_spec status 0), (Z.eqb_spec status 401),
      (Z.eqb_spec status 403), (Z.eqb_spec status 400), (Z.eqb_spec status 422);
      simpl; lia.
  - destruct (includes (toLowerCase msg) "network" || includes (toLowerCase msg) "fetch");
      simpl; lia.
  - lia.
Qed.

Lemma error_classes_are_exclusive_witness :
  classes ascii_toLowerCase (ApiError "VALIDATION" 422 "Title is required") = 1
  ∧ classes ascii_toLowerCase (ApiError "FORBIDDEN" 401 "") = 2.
Proof.
  pose proof (proj1 (error_classes_are_exclusive ascii_toLowerCase)
                (ApiError "VALIDATION" 422 "Title is required")
                ltac:(by split_and!)) as Hle.
  split; [|reflexivity].
  assert (Hge : (1 ≤ classes ascii_toLowerCase
                       (ApiError "VALIDATION" 422 "Title is required"))%nat)
    by (vm_compute; lia).
  lia.
Defined.
